(** * Avalon engine: the quest vote tracker, the game state machine and
      the snapshot walker, embedded from the TypeScript / JavaScript sources.

    - [Quest] (src/quest.ts): team-vote rounds, quest votes, outcome.
    - [GameStateMachine] (src/game-states/game-state-machine.ts): the typed
      finite state machine and its transition table.
    - [GameState] (the snapshot constructor and [_omitUselessFields]).

    JavaScript numbers that the engine only ever uses as counters are
    integers of [Z]; arrays are lists; a method that can raise returns a
    [Res]; a method that assigns to [this] runs in the state monad [M]. *)

From stdpp Require Import base list strings pretty.
From Stdlib Require Import ZArith Ascii.

Local Open Scope Z_scope.

(** ** Exceptions *)

Inductive Error : Type :=
| AlreadyVotedForTeamError
| AlreadyVotedForQuestError
| TypeError            (* a property read or a call on [undefined] *)
| IllegalTransition.

Inductive Res (A : Type) : Type :=
| Ok (a : A)
| Throw (e : Error).
Arguments Ok {A} a.
Arguments Throw {A} e.

Definition bindR {A B : Type} (r : Res A) (k : A -> Res B) : Res B :=
  match r with
  | Ok a => k a
  | Throw e => Throw e
  end.

Notation "'let!' x ':=' r 'in' k" := (bindR r (fun x => k))
  (at level 10, x name, r at level 100, k at level 200).

(** [a[i]] on a JavaScript array: [undefined] (here [None]) outside the
    array, also for a negative index. *)
Definition array_get {A : Type} (a : list A) (i : Z) : option A :=
  if decide (0 <= i) then a !! Z.to_nat i else None.

(** Dereferencing a possibly [undefined] array ([x.length], [x.find],
    [x.reduce], [x.map], [x.push]) raises [TypeError] on [undefined]. *)
Definition deref {A : Type} (o : option A) : Res A :=
  match o with
  | Some a => Ok a
  | None => Throw TypeError
  end.

(** ** JavaScript values: the plain trees that [serialize] methods return
    and that the snapshot walker takes apart. An object is the list of its
    own enumerable fields in the order they were created, which is the
    order JavaScript enumerates them in (integer-like names, which it
    enumerates first, are not used by the engine and are not given that
    treatment here). Numbers are the integers. *)

#[local] Set Warnings "-register-all".

Inductive JsVal : Type :=
| JUndefined
| JNull
| JBool (b : bool)
| JNum (n : Z)
| JStr (s : string)
| JFunction (name : string)
| JPromise (settled : bool)     (* a Promise: pending, or already settled *)
| JArray (elems : list JsVal)
| JObject (fields : list (string * JsVal)).

(** [Math.ceil(n / 2)] on an integer [n]. *)
Definition Math_ceil_half (n : Z) : Z := - ((- n) / 2).

(** ** Vote *)

(** Modelled from the spec: vote.ts is not among the sources; a vote is the
    immutable pair (username, value) with its two getters. *)
Record Vote : Type := mkVote { getUsername : string; getValue : bool }.

(** Modelled from the spec: [Vote.serialize] returns the same shape,
    [{ username, value }]. *)
Definition Vote_serialize (vote : Vote) : JsVal :=
  JObject [("username", JStr (getUsername vote));
           ("value", JBool (getValue vote))].

(** ** Quest (src/quest.ts) *)

Record Quest : Type := mkQuest {
  _votesNeeded : Z;
  _failsNeeded : Z;
  _totalPlayers : Z;
  _teamVoteRounds : list (list Vote);
  _teamVotingRoundIndex : Z;
  _questVotes : list Vote
}.

Record QuestConfig : Type := mkConfig {
  votesNeeded : Z;
  failsNeeded : Z;
  totalPlayers : Z
}.

(** [new Quest(config)] *)
Definition new_Quest (config : QuestConfig) : Quest :=
  {| _votesNeeded := votesNeeded config;
     _failsNeeded := failsNeeded config;
     _totalPlayers := totalPlayers config;
     _teamVoteRounds := [[]; []; []; []; []];
     _teamVotingRoundIndex := 0;
     _questVotes := [] |}.

Definition set_teamVoteRounds (rs : list (list Vote)) (q : Quest) : Quest :=
  {| _votesNeeded := _votesNeeded q;
     _failsNeeded := _failsNeeded q;
     _totalPlayers := _totalPlayers q;
     _teamVoteRounds := rs;
     _teamVotingRoundIndex := _teamVotingRoundIndex q;
     _questVotes := _questVotes q |}.

Definition set_teamVotingRoundIndex (i : Z) (q : Quest) : Quest :=
  {| _votesNeeded := _votesNeeded q;
     _failsNeeded := _failsNeeded q;
     _totalPlayers := _totalPlayers q;
     _teamVoteRounds := _teamVoteRounds q;
     _teamVotingRoundIndex := i;
     _questVotes := _questVotes q |}.

Definition set_questVotes (vs : list Vote) (q : Quest) : Quest :=
  {| _votesNeeded := _votesNeeded q;
     _failsNeeded := _failsNeeded q;
     _totalPlayers := _totalPlayers q;
     _teamVoteRounds := _teamVoteRounds q;
     _teamVotingRoundIndex := _teamVotingRoundIndex q;
     _questVotes := vs |}.

(** *** Read-only methods: no assignment in their bodies, so they are
    functions of the quest; they raise where the source dereferences a
    round that does not exist. *)

Definition len (votes : list Vote) : Z := Z.of_nat (length votes).

(** [votes.reduce((acc, vote) => vote.getValue() ? acc : acc + 1, 0)] *)
Definition count_rejects (votes : list Vote) : Z :=
  fold_left (fun acc vote => if getValue vote then acc else acc + 1) votes 0.

Definition getVotesNeeded (q : Quest) : Z := _votesNeeded q.
Definition getFailsNeeded (q : Quest) : Z := _failsNeeded q.
Definition getTeamVotingRoundIndex (q : Quest) : Z := _teamVotingRoundIndex q.

Definition _getCurrentTeamVotingRound (q : Quest) : option (list Vote) :=
  array_get (_teamVoteRounds q) (_teamVotingRoundIndex q).

Definition _getPreviousTeamVotingRound (q : Quest) : option (list Vote) :=
  array_get (_teamVoteRounds q) (_teamVotingRoundIndex q - 1).

Definition _everybodyVotedFor (q : Quest) (round : list Vote) : bool :=
  bool_decide (len round = _totalPlayers q).

Definition _alreadyVotedFor (votes : list Vote) (vote : Vote) : bool :=
  bool_decide (Exists (fun v => getUsername v = getUsername vote) votes).

Definition questVotingFinished (q : Quest) : bool :=
  bool_decide (len (_questVotes q) = _votesNeeded q).

Definition _failsCount (q : Quest) : Z := count_rejects (_questVotes q).

Definition _questVotingFailed (q : Quest) : bool :=
  bool_decide (_failsCount q < _failsNeeded q).

Definition _majorityApproved (q : Quest) : Res bool :=
  let! currentRound := deref (_getCurrentTeamVotingRound q) in
  let failsCount := count_rejects currentRound in
  Ok (bool_decide (failsCount < Math_ceil_half (len currentRound))).

(** [a || !b], with [b] evaluated only when [a] is false. *)
Definition teamVotingAllowed (q : Quest) : Res bool :=
  let! currentRound := deref (_getCurrentTeamVotingRound q) in
  if bool_decide (len currentRound < _totalPlayers q) then Ok true
  else let! approved := _majorityApproved q in
       Ok (negb approved).

Definition teamVotingSucceeded (q : Quest) : Res bool :=
  let! allowed := teamVotingAllowed q in
  if negb allowed then _majorityApproved q else Ok false.

Definition questVotingAllowed (q : Quest) : Res bool :=
  let! succeeded := teamVotingSucceeded q in
  if succeeded then Ok (bool_decide (len (_questVotes q) < _votesNeeded q))
  else Ok false.

Definition getStatus (q : Quest) : Res Z :=
  let! team := teamVotingAllowed q in
  let! inProgress := if team then Ok true else questVotingAllowed q in
  if (inProgress : bool) then Ok (-1)
  else Ok (if _questVotingFailed q then 1 else 0).

Definition isComplete (q : Quest) : Res bool :=
  let! status := getStatus q in
  Ok (negb (bool_decide (status = -1))).

Definition teamVotingRoundFinished (q : Quest) : Res bool :=
  let! succeeded := teamVotingSucceeded q in
  if (succeeded : bool) then Ok true
  else match _getPreviousTeamVotingRound q with
       | None => Ok false
       | Some previousRound =>
           if _everybodyVotedFor q previousRound
           then let! currentRound := deref (_getCurrentTeamVotingRound q) in
                Ok (bool_decide (len currentRound = 0))
           else Ok false
       end.

Definition isLastRoundOfTeamVoting (q : Quest) : bool :=
  bool_decide (_teamVotingRoundIndex q = Z.of_nat (length (_teamVoteRounds q)) - 1).

Definition serialize (q : Quest) : Res JsVal :=
  let! currentRound := deref (_getCurrentTeamVotingRound q) in
  Ok (JObject
        [("failsNeeded", JNum (_failsNeeded q));
         ("votesNeeded", JNum (_votesNeeded q));
         ("teamVotes", JArray (map Vote_serialize currentRound));
         ("questVotes", JArray (map Vote_serialize (_questVotes q)))]).

(** *** Methods that assign to [this]: a state monad over the quest with
    exceptions. An exception keeps the state reached when it was raised,
    as a JavaScript [throw] keeps every assignment made before it. *)

Definition M (A : Type) : Type := Quest -> Res A * Quest.

Definition retM {A : Type} (a : A) : M A := fun q => (Ok a, q).

Definition bindM {A B : Type} (m : M A) (k : A -> M B) : M B := fun q =>
  match m q with
  | (Ok a, q') => k a q'
  | (Throw e, q') => (Throw e, q')
  end.

Definition throwM {A : Type} (e : Error) : M A := fun q => (Throw e, q).

(** Calling a read-only method. *)
Definition call {A : Type} (f : Quest -> Res A) : M A := fun q => (f q, q).

Definition gets {A : Type} (f : Quest -> A) : M A := fun q => (Ok (f q), q).

Definition modify (f : Quest -> Quest) : M unit := fun q => (Ok tt, f q).

Notation "'do!' x '<-' m ';' k" := (bindM m (fun x => k))
  (at level 10, x name, m at level 100, k at level 200).
Notation "'exec!' m ';' k" := (bindM m (fun _ => k))
  (at level 10, m at level 100, k at level 200).

(** [currentRound.push(vote)]: the round is the array stored at the current
    index of [_teamVoteRounds], so the push is seen through [this]. *)
Definition push_currentRound (vote : Vote) (q : Quest) : Quest :=
  match _getCurrentTeamVotingRound q with
  | Some currentRound =>
      set_teamVoteRounds
        (<[Z.to_nat (_teamVotingRoundIndex q) := currentRound ++ [vote]]>
           (_teamVoteRounds q)) q
  | None => q
  end.

Definition _addVoteForTeam (vote : Vote) : M unit :=
  do! currentRound <- call (fun q => deref (_getCurrentTeamVotingRound q));
  if _alreadyVotedFor currentRound vote then throwM AlreadyVotedForTeamError
  else
    exec! modify (push_currentRound vote);
    (* [currentRound] is the array just pushed to *)
    do! everybody <- gets (fun q => _everybodyVotedFor q (currentRound ++ [vote]));
    do! rejected <- (if (everybody : bool)
                     then do! succeeded <- call teamVotingSucceeded;
                          retM (negb succeeded)
                     else retM false);
    if (rejected : bool)
    then modify (fun q => set_teamVotingRoundIndex (_teamVotingRoundIndex q + 1) q)
    else retM tt.

Definition _addVoteForQuest (vote : Vote) : M unit :=
  do! questVotes <- gets _questVotes;
  if _alreadyVotedFor questVotes vote then throwM AlreadyVotedForQuestError
  else modify (fun q => set_questVotes (_questVotes q ++ [vote]) q).

Definition addVote (vote : Vote) : M unit :=
  do! allowed <- call teamVotingAllowed;
  if (allowed : bool) then _addVoteForTeam vote else _addVoteForQuest vote.

(** The quest after a sequence of [addVote] calls, each one made whatever
    the previous ones did (a caller that catches what is raised). *)
Fixpoint run_votes (votes : list Vote) (q : Quest) : Quest :=
  match votes with
  | [] => q
  | vote :: rest => run_votes rest (snd (addVote vote q))
  end.

(** The same calls issued by a caller that first checks that the quest is
    still in progress and otherwise lets the vote drop (the game answers
    NO_VOTING_TIME outside voting time). *)
Definition addVote_in_progress (vote : Vote) (q : Quest) : Quest :=
  match getStatus q with
  | Ok (-1) => snd (addVote vote q)
  | _ => q
  end.

Fixpoint run_votes_in_progress (votes : list Vote) (q : Quest) : Quest :=
  match votes with
  | [] => q
  | vote :: rest => run_votes_in_progress rest (addVote_in_progress vote q)
  end.

(** *** Vocabulary of the specification *)

Definition approvals (votes : list Vote) : Z :=
  len (filter (fun v => getValue v = true) votes).

Definition rejections (votes : list Vote) : Z :=
  len (filter (fun v => getValue v = false) votes).

(** The collection [addVote] checks and extends: the current team-voting
    round while team voting is allowed, the quest votes afterwards. *)
Definition activeVotes (q : Quest) : Res (list Vote) :=
  let! allowed := teamVotingAllowed q in
  if (allowed : bool) then deref (_getCurrentTeamVotingRound q)
  else Ok (_questVotes q).

Definition AlreadyVotedError (teamVoting : bool) : Error :=
  if teamVoting then AlreadyVotedForTeamError else AlreadyVotedForQuestError.

(** [failsCount < Math.ceil(currentRound.length / 2)] on a given round. *)
Definition majority (votes : list Vote) : bool :=
  bool_decide (count_rejects votes < Math_ceil_half (len votes)).

(** The quest after [addVote], by cases on where the vote is routed:
    this is the body of [addVote], [_addVoteForTeam] and [_addVoteForQuest]
    with the queries they call evaluated. *)
Definition addVote_result (vote : Vote) (q : Quest) : Res unit * Quest :=
  match _getCurrentTeamVotingRound q with
  | None => (Throw TypeError, q)
  | Some cur =>
      if bool_decide (len cur < _totalPlayers q) || negb (majority cur)
      then
        if _alreadyVotedFor cur vote then (Throw AlreadyVotedForTeamError, q)
        else
          let q1 := push_currentRound vote q in
          (Ok tt,
           if bool_decide (len (cur ++ [vote]) = _totalPlayers q)
              && negb (majority (cur ++ [vote]))
           then set_teamVotingRoundIndex (_teamVotingRoundIndex q + 1) q1
           else q1)
      else
        if _alreadyVotedFor (_questVotes q) vote
        then (Throw AlreadyVotedForQuestError, q)
        else (Ok tt, set_questVotes (_questVotes q ++ [vote]) q)
  end.


(** The invariant of the rounds of a quest for at least one player. *)
Definition rounds_wf (q : Quest) : Prop :=
  1 <= _totalPlayers q
  /\ 0 <= _teamVotingRoundIndex q
  /\ (forall cur, _getCurrentTeamVotingRound q = Some cur ->
        len cur <= _totalPlayers q
        /\ (len cur = _totalPlayers q -> majority cur = true))
  /\ (forall (j : Z) r, _teamVotingRoundIndex q < j ->
        array_get (_teamVoteRounds q) j = Some r -> r = []).

(** Sample quests and votes. *)
Definition quest_1_1_1 : Quest := new_Quest (mkConfig 1 1 1).
Definition approve (u : string) : Vote := mkVote u true.
Definition reject (u : string) : Vote := mkVote u false.

(** ** GameStateMachine (src/game-states/game-state-machine.ts) *)

Inductive GameState : Type :=
| Preparation
| TeamProposition
| TeamVoting
| TeamVotingPreApproved
| QuestVoting
| Assassination
| Finish.

#[global] Instance GameState_eq_dec : EqDecision GameState.
Proof. solve_decision. Defined.

Record GameStateTransitionWaitTimes : Type := mkWaitTimes {
  afterTeamProposition : Z;
  afterTeamVoting : Z;
  afterQuestVoting : Z
}.

(** Modelled from the spec: game.ts is not among the sources; the state
    machine only keeps a reference to the game and calls it. *)
Inductive Game : Type := GameRef (id : nat).

(** The state objects the listeners install with [game.setState]. *)
Inductive StateObject : Type :=
| TeamPropositionState
| TeamVotingState
| QuestVotingState
| FrozenState
| AssassinationState.

(** The calls a listener makes on the game it has captured. *)
Inductive GameCall : Type :=
| setState (s : StateObject)
| playersManager_reset
| playersManager_resetVotes
| playersManager_setIsSubmitted (b : bool)
| questsManager_nextQuest
| simulateTeamApproval.

(** [waitFor(cb, ms)]: a promise resolved once the timer has run [cb]. *)
Record Timer : Type := mkTimer { timer_cb : list GameCall; timer_ms : Z }.

Inductive Promise : Type :=
| Promise_resolve                (* [Promise.resolve()] *)
| Promise_timer (t : Timer).

(** What one run of a listener does: calls made at once, and at most one
    [waitFor]. *)
Record ListenerRun : Type := mkRun {
  run_now : list GameCall;
  run_waitFor : option Timer
}.

Definition no_run : ListenerRun := mkRun [] None.

(** The six callbacks of [initTransitionListeners], by the state they are
    registered on; [from] is the state the machine leaves. *)
Definition listener_body (w : GameStateTransitionWaitTimes)
    (on from : GameState) : ListenerRun :=
  match on with
  | TeamProposition =>
      match from with
      | Preparation => mkRun [setState TeamPropositionState] None
      | TeamVoting =>
          mkRun [setState FrozenState]
            (Some (mkTimer [playersManager_reset;
                            setState TeamPropositionState]
                     (afterTeamVoting w)))
      | QuestVoting =>
          mkRun [setState FrozenState]
            (Some (mkTimer [playersManager_reset;
                            questsManager_nextQuest;
                            setState TeamPropositionState]
                     (afterQuestVoting w)))
      | _ => no_run
      end
  | TeamVoting =>
      match from with
      | TeamProposition =>
          mkRun []
            (Some (mkTimer [playersManager_setIsSubmitted true;
                            setState TeamVotingState]
                     (afterTeamProposition w)))
      | _ => no_run
      end
  | TeamVotingPreApproved =>
      match from with
      | TeamProposition =>
          mkRun []
            (Some (mkTimer [playersManager_setIsSubmitted true;
                            setState TeamVotingState;
                            simulateTeamApproval]
                     (afterTeamProposition w)))
      | _ => no_run
      end
  | QuestVoting =>
      match from with
      | TeamVotingPreApproved | TeamVoting =>
          mkRun [setState FrozenState]
            (Some (mkTimer [playersManager_resetVotes;
                            setState QuestVotingState]
                     (afterTeamVoting w)))
      | _ => no_run
      end
  | Assassination =>
      match from with
      | QuestVoting =>
          mkRun []
            (Some (mkTimer [playersManager_reset;
                            setState AssassinationState]
                     (afterQuestVoting w)))
      | _ => no_run
      end
  | Finish =>
      match from with
      | QuestVoting | Assassination => mkRun [setState FrozenState] None
      | _ => no_run
      end
  | Preparation => no_run
  end.

(** A registered callback: the state it listens on and the game its
    closure holds. *)
Record Listener : Type := mkListener {
  listener_on : GameState;
  listener_game : Game
}.

(** Modelled from the spec: [TypeState.FiniteStateMachine] is a third-party
    class that is not among the sources. [from(a).to(b)] records the
    transition, [on(s, cb)] records the callback, and [go(s)] moves to [s]
    and runs the callbacks registered on [s] when the transition from the
    current state was recorded; any other [go] fails
    ([IllegalTransition]). *)
Record FiniteStateMachine : Type := mkFsm {
  currentState : GameState;
  transitionFunctions : list (GameState * GameState);
  onCallbacks : list Listener
}.

(** Modelled from the spec: [new TypeState.FiniteStateMachine(start)], a
    machine in its start state with nothing recorded. *)
Definition new_FiniteStateMachine (start : GameState) : FiniteStateMachine :=
  mkFsm start [] [].

(** Modelled from the spec: [fsm.from(a).to(b)] permits the transition
    from [a] to [b]. *)
Definition from_to (a b : GameState) (f : FiniteStateMachine)
  : FiniteStateMachine :=
  mkFsm (currentState f) (transitionFunctions f ++ [(a, b)]) (onCallbacks f).

(** Modelled from the spec: [fsm.on(s, callback)] registers a callback
    that is run on entering [s]. *)
Definition on (s : GameState) (game : Game) (f : FiniteStateMachine)
  : FiniteStateMachine :=
  mkFsm (currentState f) (transitionFunctions f)
        (onCallbacks f ++ [mkListener s game]).

(** Modelled from the spec: a [go] is legal when the transition from the
    current state was recorded. *)
Definition canGo (s : GameState) (f : FiniteStateMachine) : bool :=
  bool_decide ((currentState f, s) ∈ transitionFunctions f).

(** Modelled from the spec: [fsm.go(s)] gives the machine in state [s]
    and the callbacks to run, each with the state that was left; a [go]
    outside the recorded transitions fails. *)
Definition go (s : GameState) (f : FiniteStateMachine)
  : Res (FiniteStateMachine * list Listener) :=
  if canGo s f
  then Ok (mkFsm s (transitionFunctions f) (onCallbacks f),
           filter (fun l => listener_on l = s) (onCallbacks f))
  else Throw IllegalTransition.

Record GameStateMachine : Type := mkMachine {
  isInit : bool;
  fsm : option FiniteStateMachine;        (* undefined until [init] *)
  game : option Game;
  stateUpdatePromise : option Promise;
  waitTimes : GameStateTransitionWaitTimes
}.

Definition default_waitTimes : GameStateTransitionWaitTimes :=
  mkWaitTimes 5000 5000 5000.

(** [new GameStateMachine(waitTimes)] *)
Definition new_GameStateMachine (w : GameStateTransitionWaitTimes)
  : GameStateMachine :=
  mkMachine false None None None w.

Definition initTransitions (m : GameStateMachine) : GameStateMachine :=
  let f0 := new_FiniteStateMachine Preparation in
  let f1 := from_to Preparation TeamProposition f0 in
  let f2 := from_to TeamProposition TeamVoting f1 in
  let f3 := from_to TeamProposition TeamVotingPreApproved f2 in
  let f4 := from_to TeamVoting TeamProposition f3 in
  let f5 := from_to TeamVoting QuestVoting f4 in
  let f6 := from_to TeamVotingPreApproved QuestVoting f5 in
  let f7 := from_to QuestVoting TeamProposition f6 in
  let f8 := from_to QuestVoting Assassination f7 in
  let f9 := from_to QuestVoting Finish f8 in
  let f10 := from_to Assassination Finish f9 in
  mkMachine (isInit m) (Some f10) (game m) (stateUpdatePromise m) (waitTimes m).

Definition initTransitionListeners (g : Game) (m : GameStateMachine)
  : GameStateMachine :=
  let register f :=
    on Finish g
      (on Assassination g
         (on QuestVoting g
            (on TeamVotingPreApproved g
               (on TeamVoting g
                  (on TeamProposition g f))))) in
  mkMachine (isInit m) (register <$> fsm m) (Some g)
            (stateUpdatePromise m) (waitTimes m).

Definition init (g : Game) (m : GameStateMachine) : GameStateMachine :=
  if isInit m then m
  else
    let m1 := mkMachine true (fsm m) (game m) (stateUpdatePromise m)
                (waitTimes m) in
    initTransitionListeners g (initTransitions m1).

(** Running the callbacks of a transition: the calls made on their games
    at once, and [this.stateUpdatePromise] as the last [waitFor] left it. *)
Fixpoint run_listeners (w : GameStateTransitionWaitTimes) (from : GameState)
    (ls : list Listener) (pending : option Promise)
  : list (Game * GameCall) * option Promise :=
  match ls with
  | [] => ([], pending)
  | l :: rest =>
      let r := listener_body w (listener_on l) from in
      let pending' := match run_waitFor r with
                      | Some t => Some (Promise_timer t)
                      | None => pending
                      end in
      let '(calls, final) := run_listeners w from rest pending' in
      (map (fun c => (listener_game l, c)) (run_now r) ++ calls, final)
  end.

Record Transition : Type := mkTransition {
  returned : Promise;
  gameCalls : list (Game * GameCall)
}.

Definition transitionTo (s : GameState) (m : GameStateMachine)
  : Res Transition * GameStateMachine :=
  match fsm m with
  | None => (Throw TypeError, m)
  | Some f =>
      match go s f with
      | Throw e => (Throw e, m)
      | Ok (f', ls) =>
          let '(calls, pending) :=
            run_listeners (waitTimes m) (currentState f) ls
              (stateUpdatePromise m) in
          let promise := match pending with
                         | Some p => p
                         | None => Promise_resolve
                         end in
          (Ok (mkTransition promise calls),
           mkMachine (isInit m) (Some f') (game m) None (waitTimes m))
      end
  end.

(** The machine after a sequence of [transitionTo] calls. *)
Fixpoint run_transitions (path : list GameState) (m : GameStateMachine)
  : GameStateMachine :=
  match path with
  | [] => m
  | s :: rest => run_transitions rest (snd (transitionTo s m))
  end.

(** The transition table as the specification lists it. *)
Definition permitted (from to : GameState) : bool :=
  match from, to with
  | Preparation, TeamProposition
  | TeamProposition, TeamVoting
  | TeamProposition, TeamVotingPreApproved
  | TeamVoting, TeamProposition
  | TeamVoting, QuestVoting
  | TeamVotingPreApproved, QuestVoting
  | QuestVoting, TeamProposition
  | QuestVoting, Assassination
  | QuestVoting, Finish
  | Assassination, Finish => true
  | _, _ => false
  end.

(** The table [initTransitions] builds. *)
Definition init_table : list (GameState * GameState) :=
  [(Preparation, TeamProposition);
   (TeamProposition, TeamVoting);
   (TeamProposition, TeamVotingPreApproved);
   (TeamVoting, TeamProposition);
   (TeamVoting, QuestVoting);
   (TeamVotingPreApproved, QuestVoting);
   (QuestVoting, TeamProposition);
   (QuestVoting, Assassination);
   (QuestVoting, Finish);
   (Assassination, Finish)].

(** ** The snapshot constructor: [GameState] and [_omitUselessFields]

    The walker deletes and re-creates the fields of the objects it is
    given; in a tree every object is reached once, so the mutation is the
    value the walker returns. A looked-up field is read from the object as
    it is at that moment, as lodash's [_.each] does. *)

Definition isFunction (v : JsVal) : bool :=
  match v with JFunction _ => true | _ => false end.

Definition instanceof_Promise (v : JsVal) : bool :=
  match v with JPromise _ => true | _ => false end.

(** lodash [_.isObject]: anything of the language type Object. *)
Definition isObject (v : JsVal) : bool :=
  match v with
  | JFunction _ | JPromise _ | JArray _ | JObject _ => true
  | _ => false
  end.

(** The iteratee the constructor passes:
    [(val) => _.isFunction(val) || val instanceof Promise]. *)
Definition useless (val : JsVal) : bool :=
  isFunction val || instanceof_Promise val.

Definition underscore : Ascii.ascii := "_"%char.

(** [k.replace(/_/, '')]: the first underscore of [k], wherever it stands,
    is removed. *)
Fixpoint replace_underscore (k : string) : string :=
  match k with
  | EmptyString => EmptyString
  | String c rest =>
      if decide (c = underscore) then rest
      else String c (replace_underscore rest)
  end.

(** [obj[k]] *)
Fixpoint obj_get (fields : list (string * JsVal)) (k : string) : JsVal :=
  match fields with
  | [] => JUndefined
  | (k', v) :: rest => if decide (k' = k) then v else obj_get rest k
  end.

(** [_.unset(obj, k)] *)
Definition unset (fields : list (string * JsVal)) (k : string)
  : list (string * JsVal) :=
  filter (fun p => fst p <> k) fields.

(** [obj[k] = v]: an existing field keeps its place, a new one comes
    last. This is what the language does for names that are neither
    integer indices (which an object lists before its other names) nor
    [__proto__] (which sets the prototype and creates no field); the
    statements about the walker on arbitrary objects are restricted to
    such names ([key_ok], [safe_names]). *)
Fixpoint obj_set (fields : list (string * JsVal)) (k : string) (v : JsVal)
  : list (string * JsVal) :=
  match fields with
  | [] => [(k, v)]
  | (k', v') :: rest =>
      if decide (k' = k) then (k, v) :: rest
      else (k', v') :: obj_set rest k v
  end.

(** lodash [isLength] and [isArrayLike] on an object: [_.each] walks an
    object whose [length] is a valid array length by index, as it walks an
    array. *)
Definition MAX_SAFE_INTEGER : Z := 2 ^ 53 - 1.

Definition arrayLike_length (fields : list (string * JsVal)) : option Z :=
  match obj_get fields "length" with
  | JNum n => if bool_decide (0 <= n <= MAX_SAFE_INTEGER) then Some n else None
  | _ => None
  end.

Section Each.

(** The predicate the walker is given, and its own recursive call
    [this._omitUselessFields(v, iteratee)]; [None] when the fuel of the
    walk is used up. *)
Variable iteratee : JsVal -> bool.
Variable walk : JsVal -> option (Res JsVal).

(** [_.each(obj, (v, k) => ...)] on an object: the keys are listed
    first, each value is read when its key comes up. After
    [obj[k'] = v] the walker mutates [v] in place, which [obj[k']]
    shows. *)
Fixpoint each_field (keys : list string) (obj : list (string * JsVal))
  : option (Res (list (string * JsVal))) :=
  match keys with
  | [] => Some (Ok obj)
  | k :: rest =>
      let v := obj_get obj k in
      let obj1 := unset obj k in
      if iteratee v then each_field rest obj1
      else
        let k' := replace_underscore k in
        let obj2 := obj_set obj1 k' v in
        if isObject v then
          match walk v with
          | Some (Ok v') => each_field rest (obj_set obj2 k' v')
          | Some (Throw e) => Some (Throw e)
          | None => None
          end
        else each_field rest obj2
  end.

(** [_.each(array, (v, k) => ...)] on an array: [k] is the numeric
    index, so [k.replace] is not a function and the callback raises
    [TypeError] at the first element it does not drop; a dropped element
    leaves a hole, read back as [undefined]. *)
Fixpoint each_index (elems : list JsVal) : Res (list JsVal) :=
  match elems with
  | [] => Ok []
  | v :: rest =>
      if iteratee v
      then let! rest' := each_index rest in Ok (JUndefined :: rest')
      else Throw TypeError
  end.

(** The same walk by index on an array-like object. *)
Fixpoint each_index_like (indices : list nat) (obj : list (string * JsVal))
  : Res (list (string * JsVal)) :=
  match indices with
  | [] => Ok obj
  | i :: rest =>
      let v := obj_get obj (pretty i) in
      let obj1 := unset obj (pretty i) in
      if iteratee v then each_index_like rest obj1 else Throw TypeError
  end.

End Each.

Fixpoint _omitUselessFields (fuel : nat) (obj : JsVal)
    (iteratee : JsVal -> bool) : option (Res JsVal) :=
  match fuel with
  | O => None
  | S fuel' =>
      match obj with
      | JObject fields =>
          match arrayLike_length fields with
          | Some n =>
              Some (let! fields' :=
                      each_index_like iteratee (seq 0 (Z.to_nat n)) fields in
                    Ok (JObject fields'))
          | None =>
              match each_field iteratee
                      (fun v => _omitUselessFields fuel' v iteratee)
                      (map fst fields) fields with
              | Some (Ok fields') => Some (Ok (JObject fields'))
              | Some (Throw e) => Some (Throw e)
              | None => None
              end
          end
      | JArray elems =>
          Some (let! elems' := each_index iteratee elems in
                Ok (JArray elems'))
      | _ => Some (Ok obj)          (* nothing to enumerate *)
      end
  end.

(** [_.cloneDeep(obj)] on a tree: the same tree; a function or a promise
    at the root has no clone and becomes an empty object (nested ones are
    kept as they are). *)
Definition cloneDeep (obj : JsVal) : JsVal :=
  match obj with
  | JFunction _ | JPromise _ => JObject []
  | _ => obj
  end.

(** [Object.assign({}, src)]: the own enumerable fields of [src]. *)
Definition Object_assign (src : JsVal) : list (string * JsVal) :=
  match src with
  | JObject fields => fields
  | JArray elems => imap (fun i v => (pretty i, v)) elems
  | JStr s =>
      imap (fun i c => (pretty i, JStr (String c EmptyString)))
           (String.list_ascii_of_string s)
  | _ => []
  end.

(** [new GameState(obj).get()] *)
Definition new_GameState (fuel : nat) (obj : JsVal) : option (Res JsVal) :=
  _omitUselessFields fuel (JObject (Object_assign (cloneDeep obj))) useless.

(** *** The snapshot in the words of the specification *)

Definition strip_leading_underscore (k : string) : string :=
  match k with
  | String c rest => if decide (c = underscore) then rest else k
  | EmptyString => k
  end.

Section SnapshotRules.

(** Which values make a field disappear. *)
Variable omitted : JsVal -> bool.

Fixpoint snapshot_with (v : JsVal) : JsVal :=
  match v with
  | JObject fields =>
      JObject
        (flat_map (fun p => if omitted (snd p) then []
                            else [(strip_leading_underscore (fst p),
                                   snapshot_with (snd p))])
           fields)
  | JArray elems =>
      JArray
        (flat_map (fun x => if omitted x then [] else [snapshot_with x])
           elems)
  | _ => v
  end.

End SnapshotRules.

(** As specified: a field whose value is a function or a promise is
    omitted (the snapshot is free of functions and promises), a leading
    underscore is stripped, objects and arrays are rebuilt by the same
    rules. *)
Definition snapshot_spec : JsVal -> JsVal :=
  snapshot_with (fun v => isFunction v || instanceof_Promise v).

(** The same rules with the test the constructor passes to the walker. *)
Definition snapshot : JsVal -> JsVal := snapshot_with useless.

(** Trees on which the walker is used as intended: objects that are not
    array-like, whose field names are identifiers with no underscore
    beyond a leading one and stay distinct once it is stripped; no array
    with elements. *)
Fixpoint no_underscore (s : string) : bool :=
  match s with
  | EmptyString => true
  | String c rest =>
      if decide (c = underscore) then false else no_underscore rest
  end.

Definition starts_with_digit (s : string) : bool :=
  match s with
  | String c _ => bool_decide (48 <= nat_of_ascii c <= 57)%nat
  | EmptyString => false
  end.

Definition key_ok (k : string) : bool :=
  no_underscore (strip_leading_underscore k)
  && negb (starts_with_digit (strip_leading_underscore k)).

Fixpoint plain_tree (v : JsVal) : bool :=
  match v with
  | JObject fields =>
      forallb (fun p => key_ok (fst p) && plain_tree (snd p)) fields
      && bool_decide (NoDup (map (fun p => strip_leading_underscore (fst p))
                               fields))
      && match arrayLike_length fields with None => true | Some _ => false end
  | JArray elems => match elems with [] => true | _ => false end
  | _ => true
  end.

Fixpoint depth (v : JsVal) : nat :=
  match v with
  | JObject fields => S (max_list (map (fun p => depth (snd p)) fields))
  | JArray elems => S (max_list (map depth elems))
  | _ => 0
  end.

(** Helpers for stating what the walker does to one object. *)
Definition fresh (k : string) (fields : list (string * JsVal)) : Prop :=
  Forall (fun p => fst p <> k) fields.

Definition strip_fst (p : string * JsVal) : string :=
  strip_leading_underscore (fst p).

(** The fields of the snapshot of an object. *)
Definition snap_fields (fields : list (string * JsVal))
  : list (string * JsVal) :=
  flat_map (fun p => if useless (snd p) then []
                     else [(strip_leading_underscore (fst p), snapshot (snd p))])
    fields.

(** ** Further vocabulary: histories of a quest *)

Definition usernames (votes : list Vote) : list string :=
  map getUsername votes.

(** No player is recorded twice in a round or among the quest votes. *)
Definition unique_voters (q : Quest) : Prop :=
  Forall (fun round => NoDup (usernames round)) (_teamVoteRounds q)
  /\ NoDup (usernames (_questVotes q)).

(** Every round and the quest votes of [q] are still there in [q'], each
    possibly with more votes at its end. *)
Definition history_extends (q q' : Quest) : Prop :=
  length (_teamVoteRounds q') = length (_teamVoteRounds q)
  /\ (forall (j : nat) round, _teamVoteRounds q !! j = Some round ->
        exists round', _teamVoteRounds q' !! j = Some round'
                       /\ round `prefix_of` round')
  /\ _questVotes q `prefix_of` _questVotes q'.

Definition same_config (q q' : Quest) : Prop :=
  _votesNeeded q' = _votesNeeded q
  /\ _failsNeeded q' = _failsNeeded q
  /\ _totalPlayers q' = _totalPlayers q.

(** ** Further vocabulary: what a transition does to the game *)

(** The configured wait that follows the state the machine leaves. *)
Definition wait_after (w : GameStateTransitionWaitTimes) (from : GameState)
  : option Z :=
  match from with
  | TeamProposition => Some (afterTeamProposition w)
  | TeamVoting | TeamVotingPreApproved => Some (afterTeamVoting w)
  | QuestVoting => Some (afterQuestVoting w)
  | _ => None
  end.

(** The state object that serves a state of the machine. *)
Definition stateObject_of (s : GameState) : option StateObject :=
  match s with
  | Preparation => None
  | TeamProposition => Some TeamPropositionState
  | TeamVoting | TeamVotingPreApproved => Some TeamVotingState
  | QuestVoting => Some QuestVotingState
  | Assassination => Some AssassinationState
  | Finish => Some FrozenState
  end.

(** The state object a sequence of calls leaves installed. *)
Fixpoint last_setState (calls : list GameCall) : option StateObject :=
  match calls with
  | [] => None
  | c :: rest =>
      match last_setState rest with
      | Some s => Some s
      | None => match c with setState s => Some s | _ => None end
      end
  end.

(** Every call a listener run makes, those of its timer last. *)
Definition all_calls (r : ListenerRun) : list GameCall :=
  run_now r ++ match run_waitFor r with
               | Some t => timer_cb t
               | None => []
               end.

(** The callbacks [initTransitionListeners] registers for a game. *)
Definition listeners_of (g : Game) : list Listener :=
  [mkListener TeamProposition g; mkListener TeamVoting g;
   mkListener TeamVotingPreApproved g; mkListener QuestVoting g;
   mkListener Assassination g; mkListener Finish g].

(** A machine between two calls, after [init] for game [g]. *)
Definition machine_ready (g : Game) (w : GameStateTransitionWaitTimes)
    (m : GameStateMachine) : Prop :=
  exists f, fsm m = Some f
            /\ transitionFunctions f = init_table
            /\ onCallbacks f = listeners_of g
            /\ stateUpdatePromise m = None
            /\ waitTimes m = w.

(** ** Further vocabulary: objects as the language keeps them *)





(** ** Proofs about the quest *)

Section QuestFacts.

Implicit Types (q : Quest) (vote : Vote) (votes cur : list Vote).

Lemma count_rejects_from votes (acc : Z) :
  fold_left (fun acc vote => if getValue vote then acc else acc + 1) votes acc
  = acc + rejections votes.
Proof.
  revert acc. induction votes as [|v votes IH]; intros acc.
  - unfold rejections, len. simpl. lia.
  - simpl. rewrite IH. unfold rejections, len.
    rewrite filter_cons. destruct (getValue v) eqn:Hv.
    + rewrite decide_False by done. lia.
    + rewrite decide_True by done. simpl length. lia.
Qed.

Lemma count_rejects_rejections votes : count_rejects votes = rejections votes.
Proof. unfold count_rejects. rewrite count_rejects_from. lia. Qed.

Lemma approvals_rejections votes : approvals votes + rejections votes = len votes.
Proof.
  unfold approvals, rejections, len.
  induction votes as [|v votes IH]; [done|].
  rewrite !filter_cons. destruct (getValue v) eqn:Hv.
  - rewrite decide_True by done. rewrite decide_False by done.
    simpl length. lia.
  - rewrite decide_False by done. rewrite decide_True by done.
    simpl length. lia.
Qed.

Lemma rejections_nonneg votes : 0 <= rejections votes.
Proof. unfold rejections, len. lia. Qed.

Lemma approvals_nonneg votes : 0 <= approvals votes.
Proof. unfold approvals, len. lia. Qed.

Lemma rejections_app votes votes' :
  rejections (votes ++ votes') = rejections votes + rejections votes'.
Proof. unfold rejections, len. rewrite filter_app, length_app. lia. Qed.

Lemma len_app votes votes' : len (votes ++ votes') = len votes + len votes'.
Proof. unfold len. rewrite length_app. lia. Qed.

Lemma len_nonneg votes : 0 <= len votes.
Proof. unfold len. lia. Qed.

(** [failsCount < Math.ceil(length / 2)] is the strict majority of
    approvals: a tie is not a majority. *)
Lemma majority_strict votes :
  count_rejects votes < Math_ceil_half (len votes)
  <-> rejections votes < approvals votes.
Proof.
  rewrite count_rejects_rejections. unfold Math_ceil_half.
  pose proof (approvals_rejections votes).
  pose proof (rejections_nonneg votes). pose proof (approvals_nonneg votes).
  Z.div_mod_to_equations. lia.
Qed.

Lemma majority_true votes :
  majority votes = true <-> rejections votes < approvals votes.
Proof. unfold majority. rewrite bool_decide_eq_true. apply majority_strict. Qed.

(** What each query returns once the current round is known to exist. *)

Lemma _majorityApproved_eq q cur :
  _getCurrentTeamVotingRound q = Some cur ->
  _majorityApproved q = Ok (majority cur).
Proof. intros H. unfold _majorityApproved. rewrite H. reflexivity. Qed.

Lemma teamVotingAllowed_eq q cur :
  _getCurrentTeamVotingRound q = Some cur ->
  teamVotingAllowed q
  = Ok (bool_decide (len cur < _totalPlayers q) || negb (majority cur)).
Proof.
  intros H. unfold teamVotingAllowed. rewrite H. simpl.
  rewrite (_majorityApproved_eq q cur H). simpl.
  destruct (bool_decide (len cur < _totalPlayers q)); reflexivity.
Qed.

Lemma teamVotingSucceeded_eq q cur :
  _getCurrentTeamVotingRound q = Some cur ->
  teamVotingSucceeded q
  = Ok (bool_decide (_totalPlayers q <= len cur) && majority cur).
Proof.
  intros H. unfold teamVotingSucceeded.
  rewrite (teamVotingAllowed_eq q cur H). simpl.
  rewrite (_majorityApproved_eq q cur H).
  destruct (decide (len cur < _totalPlayers q)) as [Hlt|Hge].
  - rewrite (bool_decide_eq_true_2 _ Hlt). simpl.
    rewrite bool_decide_eq_false_2 by lia. reflexivity.
  - rewrite (bool_decide_eq_false_2 _ Hge). simpl.
    rewrite bool_decide_eq_true_2 by lia.
    destruct (majority cur); reflexivity.
Qed.

Lemma questVotingAllowed_eq q cur :
  _getCurrentTeamVotingRound q = Some cur ->
  questVotingAllowed q
  = Ok (bool_decide (_totalPlayers q <= len cur) && majority cur
        && bool_decide (len (_questVotes q) < _votesNeeded q)).
Proof.
  intros H. unfold questVotingAllowed.
  rewrite (teamVotingSucceeded_eq q cur H). simpl.
  destruct (bool_decide (_totalPlayers q <= len cur) && majority cur);
    reflexivity.
Qed.

Lemma getStatus_eq q cur :
  _getCurrentTeamVotingRound q = Some cur ->
  getStatus q
  = Ok (if bool_decide (len cur < _totalPlayers q) || negb (majority cur)
           || bool_decide (len (_questVotes q) < _votesNeeded q)
        then -1
        else if _questVotingFailed q then 1 else 0).
Proof.
  intros H. unfold getStatus.
  rewrite (teamVotingAllowed_eq q cur H). simpl.
  rewrite (questVotingAllowed_eq q cur H).
  destruct (decide (len cur < _totalPlayers q)) as [Hlt|Hge].
  - rewrite (bool_decide_eq_true_2 _ Hlt). reflexivity.
  - rewrite (bool_decide_eq_false_2 _ Hge). simpl.
    rewrite (bool_decide_eq_true_2 (_totalPlayers q <= len cur)) by lia.
    destruct (majority cur); simpl; [|reflexivity].
    destruct (bool_decide (len (_questVotes q) < _votesNeeded q)); reflexivity.
Qed.

Lemma no_round_teamVotingAllowed q :
  _getCurrentTeamVotingRound q = None -> teamVotingAllowed q = Throw TypeError.
Proof. intros H. unfold teamVotingAllowed. rewrite H. reflexivity. Qed.

Lemma no_round_teamVotingSucceeded q :
  _getCurrentTeamVotingRound q = None -> teamVotingSucceeded q = Throw TypeError.
Proof.
  intros H. unfold teamVotingSucceeded.
  rewrite (no_round_teamVotingAllowed q H). reflexivity.
Qed.

Lemma no_round_getStatus q :
  _getCurrentTeamVotingRound q = None -> getStatus q = Throw TypeError.
Proof.
  intros H. unfold getStatus.
  rewrite (no_round_teamVotingAllowed q H). reflexivity.
Qed.

Lemma _questVotingFailed_eq q :
  _questVotingFailed q
  = negb (bool_decide (_failsNeeded q <= rejections (_questVotes q))).
Proof.
  unfold _questVotingFailed, _failsCount. rewrite count_rejects_rejections.
  destruct (decide (rejections (_questVotes q) < _failsNeeded q)).
  - rewrite bool_decide_eq_true_2 by done.
    rewrite bool_decide_eq_false_2 by lia. reflexivity.
  - rewrite bool_decide_eq_false_2 by done.
    rewrite bool_decide_eq_true_2 by lia. reflexivity.
Qed.


(** [currentRound.push(vote)] seen through the quest. *)

Lemma array_get_Some {A : Type} (a : list A) (i : Z) (x : A) :
  array_get a i = Some x <-> 0 <= i /\ a !! Z.to_nat i = Some x.
Proof.
  unfold array_get. destruct (decide (0 <= i)); [tauto|].
  split; [discriminate|]. intros [? _]. lia.
Qed.

Lemma array_get_insert_eq {A : Type} (a : list A) (i : Z) (x y : A) :
  array_get a i = Some x -> array_get (<[Z.to_nat i := y]> a) i = Some y.
Proof.
  rewrite !array_get_Some. intros [Hi Hx]. split; [done|].
  apply list_lookup_insert_eq. by apply lookup_lt_Some in Hx.
Qed.

Lemma array_get_insert_ne {A : Type} (a : list A) (i j : Z) (y : A) :
  0 <= i -> i <> j -> array_get (<[Z.to_nat i := y]> a) j = array_get a j.
Proof.
  intros Hi Hne. unfold array_get. destruct (decide (0 <= j)); [|done].
  apply list_lookup_insert_ne. lia.
Qed.

Lemma push_currentRound_current q cur vote :
  _getCurrentTeamVotingRound q = Some cur ->
  _getCurrentTeamVotingRound (push_currentRound vote q) = Some (cur ++ [vote]).
Proof.
  intros H. unfold push_currentRound. rewrite H.
  unfold _getCurrentTeamVotingRound in *. simpl.
  by apply array_get_insert_eq with cur.
Qed.

Lemma push_currentRound_other q cur vote (j : Z) :
  _getCurrentTeamVotingRound q = Some cur ->
  j <> _teamVotingRoundIndex q ->
  array_get (_teamVoteRounds (push_currentRound vote q)) j
  = array_get (_teamVoteRounds q) j.
Proof.
  intros H Hj. unfold push_currentRound. rewrite H. simpl.
  unfold _getCurrentTeamVotingRound in H. apply array_get_Some in H as [Hi _].
  apply array_get_insert_ne; [done|congruence].
Qed.

Lemma push_currentRound_fields q vote :
  _totalPlayers (push_currentRound vote q) = _totalPlayers q
  /\ _votesNeeded (push_currentRound vote q) = _votesNeeded q
  /\ _failsNeeded (push_currentRound vote q) = _failsNeeded q
  /\ _teamVotingRoundIndex (push_currentRound vote q) = _teamVotingRoundIndex q
  /\ _questVotes (push_currentRound vote q) = _questVotes q.
Proof.
  unfold push_currentRound.
  destruct (_getCurrentTeamVotingRound q); repeat split; reflexivity.
Qed.

Lemma addVote_eq vote q : addVote vote q = addVote_result vote q.
Proof.
  unfold addVote, addVote_result, bindM, call.
  destruct (_getCurrentTeamVotingRound q) as [cur|] eqn:Hcur.
  2:{ rewrite (no_round_teamVotingAllowed q Hcur). reflexivity. }
  rewrite (teamVotingAllowed_eq q cur Hcur).
  destruct (bool_decide (len cur < _totalPlayers q) || negb (majority cur)).
  - unfold _addVoteForTeam, bindM, call, throwM, modify, gets, retM.
    rewrite Hcur. simpl.
    destruct (_alreadyVotedFor cur vote); [reflexivity|].
    pose proof (push_currentRound_current q cur vote Hcur) as Hcur1.
    destruct (push_currentRound_fields q vote) as (Ht & _ & _ & Hi & _).
    unfold _everybodyVotedFor. rewrite Ht.
    destruct (decide (len (cur ++ [vote]) = _totalPlayers q)) as [Hall|Hnot].
    + rewrite (bool_decide_eq_true_2 _ Hall).
      rewrite (teamVotingSucceeded_eq _ _ Hcur1). rewrite Ht.
      rewrite bool_decide_eq_true_2 by lia. simpl.
      destruct (majority (cur ++ [vote])); simpl; [reflexivity|].
      rewrite Hi. reflexivity.
    + rewrite (bool_decide_eq_false_2 _ Hnot). reflexivity.
  - unfold _addVoteForQuest, bindM, gets, throwM, modify.
    destruct (_alreadyVotedFor (_questVotes q) vote); reflexivity.
Qed.

Lemma _alreadyVotedFor_true votes vote :
  _alreadyVotedFor votes vote = true
  <-> exists v, v ∈ votes /\ getUsername v = getUsername vote.
Proof.
  unfold _alreadyVotedFor. rewrite bool_decide_eq_true, Exists_exists.
  split; intros (v & Hin & Hv); exists v; split; try done;
    by apply list_elem_of_In.
Qed.

End QuestFacts.

(** ** The quest: status, team voting, vote routing *)

Section QuestClaims.

Implicit Types (q : Quest) (vote : Vote) (votes cur : list Vote).

(** C1: on a quest whose current team-voting round exists, [getStatus]
    returns; it returns -1 while team voting or quest voting is allowed,
    and once neither is allowed it returns 0 exactly when the reject quest
    votes are at least [failsNeeded], and 1 otherwise. *)
Theorem getStatus_spec q cur :
  _getCurrentTeamVotingRound q = Some cur ->
  exists team quest : bool,
    teamVotingAllowed q = Ok team
    /\ questVotingAllowed q = Ok quest
    /\ getStatus q
       = Ok (if team || quest then -1
             else if bool_decide (_failsNeeded q <= rejections (_questVotes q))
                  then 0 else 1).
Proof.
  intros H.
  exists (bool_decide (len cur < _totalPlayers q) || negb (majority cur)).
  exists (bool_decide (_totalPlayers q <= len cur) && majority cur
          && bool_decide (len (_questVotes q) < _votesNeeded q)).
  split; [by apply teamVotingAllowed_eq|].
  split; [by apply questVotingAllowed_eq|].
  rewrite (getStatus_eq q cur H), _questVotingFailed_eq.
  destruct (decide (len cur < _totalPlayers q)) as [Hlt|Hge].
  - rewrite (bool_decide_eq_true_2 _ Hlt). reflexivity.
  - rewrite (bool_decide_eq_false_2 _ Hge).
    rewrite (bool_decide_eq_true_2 (_totalPlayers q <= len cur)) by lia.
    destruct (majority cur); simpl; [|reflexivity].
    destruct (bool_decide (len (_questVotes q) < _votesNeeded q)); simpl;
      [reflexivity|].
    destruct (bool_decide (_failsNeeded q <= rejections (_questVotes q)));
      reflexivity.
Qed.

(** C1 at work: the team approved, the only quest vote rejects. *)
Lemma getStatus_spec_witness :
  let q := run_votes [approve "a"; reject "a"] quest_1_1_1 in
  _getCurrentTeamVotingRound q = Some [approve "a"]
  /\ exists team quest : bool,
       teamVotingAllowed q = Ok team
       /\ questVotingAllowed q = Ok quest
       /\ getStatus q
          = Ok (if team || quest then -1
                else if bool_decide (_failsNeeded q <= rejections (_questVotes q))
                     then 0 else 1).
Proof.
  split; [reflexivity|].
  apply (getStatus_spec (run_votes [approve "a"; reject "a"] quest_1_1_1)
           [approve "a"]).
  reflexivity.
Defined.


(** What every quest built by the constructor for at least one player and
    driven by [addVote] satisfies: the current round never holds more than
    [totalPlayers] votes, a full current round has been approved (a full
    rejected one moved the index on), and the rounds after the current one
    are still empty. *)
Lemma new_Quest_rounds_wf config :
  1 <= totalPlayers config -> rounds_wf (new_Quest config).
Proof.
  intros Hn. unfold rounds_wf. simpl. split; [lia|]. split; [lia|]. split.
  - intros cur Hcur. unfold _getCurrentTeamVotingRound in Hcur. simpl in Hcur.
    injection Hcur as <-. unfold len. simpl. lia.
  - intros j r Hj Hr. apply array_get_Some in Hr as [_ Hr].
    apply list_elem_of_lookup_2 in Hr.
    repeat (apply elem_of_cons in Hr as [Hr|Hr]; [done|]).
    by apply elem_of_nil in Hr.
Qed.

Lemma addVote_rounds_wf vote q :
  rounds_wf q -> rounds_wf (snd (addVote vote q)).
Proof.
  intros Hwf. pose proof Hwf as (Hn & Hi & Hcur & Hlater).
  rewrite addVote_eq. unfold addVote_result.
  destruct (_getCurrentTeamVotingRound q) as [cur|] eqn:Hc; [|exact Hwf].
  destruct (Hcur cur eq_refl) as [Hle Hfull].
  destruct (bool_decide (len cur < _totalPlayers q) || negb (majority cur))
    eqn:Hallowed.
  - destruct (_alreadyVotedFor cur vote); [exact Hwf|].
    assert (len cur < _totalPlayers q) as Hlt.
    { destruct (decide (len cur < _totalPlayers q)); [done|].
      rewrite bool_decide_eq_false_2 in Hallowed by done.
      rewrite Hfull in Hallowed by lia. done. }
    pose proof (push_currentRound_current q cur vote Hc) as Hc1.
    destruct (push_currentRound_fields q vote) as (Ht & _ & _ & Hi1 & _).
    assert (len (cur ++ [vote]) = len cur + 1) as Hlen
      by (rewrite len_app; reflexivity).
    destruct (bool_decide (len (cur ++ [vote]) = _totalPlayers q)
              && negb (majority (cur ++ [vote]))) eqn:Hrej; simpl.
    + (* the round is full and rejected: the next round becomes current *)
      unfold rounds_wf, _getCurrentTeamVotingRound. simpl.
      rewrite Ht. split; [lia|]. split; [lia|]. split.
      * intros r Hr.
        rewrite (push_currentRound_other q cur vote) in Hr by (done || lia).
        rewrite (Hlater (_teamVotingRoundIndex q + 1) r ltac:(lia) Hr). unfold len. simpl.
        split; [lia|]. intros Hz. lia.
      * intros j r Hj Hr.
        rewrite (push_currentRound_other q cur vote) in Hr by (done || lia).
        apply (Hlater j r); [lia|done].
    + unfold rounds_wf. rewrite Ht, Hi1, Hc1.
      split; [lia|]. split; [lia|]. split.
      * intros r [= <-]. split; [lia|]. intros Hfull'.
        rewrite (bool_decide_eq_true_2 _ Hfull') in Hrej. simpl in Hrej.
        by destruct (majority (cur ++ [vote])).
      * intros j r Hj Hr.
        rewrite (push_currentRound_other q cur vote) in Hr by (done || lia).
        apply (Hlater j r); [lia|done].
  - destruct (_alreadyVotedFor (_questVotes q) vote); exact Hwf.
Qed.

Lemma run_votes_rounds_wf votes q :
  rounds_wf q -> rounds_wf (run_votes votes q).
Proof.
  revert q. induction votes as [|vote votes IH]; intros q Hq; [done|].
  simpl. apply IH. by apply addVote_rounds_wf.
Qed.

Lemma run_votes_totalPlayers votes q :
  _totalPlayers (run_votes votes q) = _totalPlayers q.
Proof.
  revert q. induction votes as [|vote votes IH]; intros q; [done|].
  simpl. rewrite IH, addVote_eq. unfold addVote_result.
  destruct (_getCurrentTeamVotingRound q) as [cur|]; [|done].
  destruct (push_currentRound_fields q vote) as (Ht & _).
  repeat (case_match; simpl; try done).
Qed.

(** The code's own reading of "team voting succeeded": at least
    [totalPlayers] votes in the current round and a strict majority. *)
Lemma teamVotingSucceeded_true q :
  teamVotingSucceeded q = Ok true
  <-> exists cur, _getCurrentTeamVotingRound q = Some cur
                  /\ _totalPlayers q <= len cur
                  /\ rejections cur < approvals cur.
Proof.
  destruct (_getCurrentTeamVotingRound q) as [cur|] eqn:Hc.
  - rewrite (teamVotingSucceeded_eq q cur Hc). split.
    + intros [= H]. apply andb_true_iff in H as [H1 H2].
      apply bool_decide_eq_true in H1. apply majority_true in H2. eauto.
    + intros (cur' & [= <-] & H1 & H2). f_equal. apply andb_true_iff.
      split; [by apply bool_decide_eq_true|by apply majority_true].
  - rewrite (no_round_teamVotingSucceeded q Hc). split; [done|].
    by intros (cur' & ? & _).
Qed.

(** C2: [teamVotingSucceeded] returns true if and only if the current
    round holds exactly [totalPlayers] votes and the approvals strictly
    outnumber the rejections (a tie is a rejection). In every state of a
    quest whose current round holds at most [totalPlayers] votes, what it
    returns is that test; a quest created for at least one player and
    driven by [addVote] is always in such a state, so there it returns
    true exactly when the current round is full and approved. *)
Theorem teamVotingSucceeded_spec :
  (forall q cur,
     _getCurrentTeamVotingRound q = Some cur ->
     len cur <= _totalPlayers q ->
     teamVotingSucceeded q
     = Ok (bool_decide (len cur = _totalPlayers q
                        /\ rejections cur < approvals cur)))
  /\ (forall config votes,
        1 <= totalPlayers config ->
        let q := run_votes votes (new_Quest config) in
        _totalPlayers q = totalPlayers config
        /\ (forall cur, _getCurrentTeamVotingRound q = Some cur ->
              len cur <= totalPlayers config)
        /\ (teamVotingSucceeded q = Ok true
            <-> exists cur, _getCurrentTeamVotingRound q = Some cur
                            /\ len cur = totalPlayers config
                            /\ rejections cur < approvals cur)).
Proof.
  split.
  - intros q cur Hc Hle. rewrite (teamVotingSucceeded_eq q cur Hc). f_equal.
    destruct (decide (len cur = _totalPlayers q)) as [Hfull|Hnot].
    + rewrite bool_decide_eq_true_2 by lia.
      destruct (majority cur) eqn:Hm; simpl.
      * apply majority_true in Hm. by rewrite bool_decide_eq_true_2.
      * rewrite bool_decide_eq_false_2; [done|]. intros [_ Hlt].
        apply majority_true in Hlt. congruence.
    + rewrite bool_decide_eq_false_2 by lia. simpl.
      rewrite bool_decide_eq_false_2; [done|]. tauto.
  - intros config votes Hn q.
    assert (rounds_wf q) as (_ & _ & Hcur & _)
      by (apply run_votes_rounds_wf, new_Quest_rounds_wf, Hn).
    assert (_totalPlayers q = totalPlayers config) as Ht
      by (unfold q; rewrite run_votes_totalPlayers; reflexivity).
    split; [exact Ht|]. rewrite Ht in Hcur. split.
    { intros cur Hc. by destruct (Hcur cur Hc). }
    rewrite teamVotingSucceeded_true. rewrite Ht.
    split; intros (cur & Hc & Hlen & Hmaj); exists cur;
      (split; [done|]); (split; [|done]).
    + destruct (Hcur cur Hc). lia.
    + lia.
Qed.

(** C2 at work: three players, two of them approve, and the query
    returns true; with the third vote still missing it returns false. *)
Lemma teamVotingSucceeded_spec_witness :
  let config := mkConfig 2 1 3 in
  let votes := [approve "a"; reject "b"; approve "c"] in
  1 <= totalPlayers config
  /\ _getCurrentTeamVotingRound (run_votes votes (new_Quest config))
     = Some votes
  /\ len votes <= totalPlayers config
  /\ teamVotingSucceeded (run_votes votes (new_Quest config)) = Ok true
  /\ teamVotingSucceeded
       (run_votes [approve "a"; approve "c"] (new_Quest config)) = Ok false.
Proof.
  split; [vm_compute; discriminate|]. split; [reflexivity|].
  split; [vm_compute; discriminate|]. split.
  - exact (proj1 teamVotingSucceeded_spec
             (run_votes [approve "a"; reject "b"; approve "c"]
                (new_Quest (mkConfig 2 1 3)))
             [approve "a"; reject "b"; approve "c"] eq_refl
             ltac:(vm_compute; discriminate)).
  - exact (proj1 teamVotingSucceeded_spec
             (run_votes [approve "a"; approve "c"] (new_Quest (mkConfig 2 1 3)))
             [approve "a"; approve "c"] eq_refl
             ltac:(vm_compute; discriminate)).
Defined.

(** C3, as the specification words it, fails on an approved round: with
    one player and one approving vote the current round is complete and
    approved, [teamVotingRoundFinished] returns true, and the call leaves
    the round index where it was. *)
Lemma teamVotingRoundFinished_counterexample :
  let q := run_votes [approve "a"] quest_1_1_1 in
  ~ (teamVotingRoundFinished q = Ok true
     <-> exists cur, _getCurrentTeamVotingRound q = Some cur
                     /\ len cur = _totalPlayers q
                     /\ approvals cur <= rejections cur)
  /\ _teamVotingRoundIndex (snd (call teamVotingRoundFinished q))
     <> _teamVotingRoundIndex q + 1.
Proof.
  split; [|discriminate].
  intros [Hto _]. destruct (Hto eq_refl) as (cur & Hcur & _ & Hrej).
  injection Hcur as <-. revert Hrej. vm_compute. intros H. by apply H.
Qed.

(** C3 (amended): [teamVotingRoundFinished] is a query and changes
    nothing; it returns true exactly when team voting succeeded, or the
    previous round holds [totalPlayers] votes and the current round is
    still empty. The round index moves in [addVote] only: by one, exactly
    when the vote is recorded in the current team-voting round and fills
    it without a strict majority of approvals. *)
Theorem teamVotingRoundFinished_amended q :
  (teamVotingRoundFinished q = Ok true
   <-> teamVotingSucceeded q = Ok true
       \/ exists prev, _getPreviousTeamVotingRound q = Some prev
                       /\ len prev = _totalPlayers q
                       /\ _getCurrentTeamVotingRound q = Some [])
  /\ snd (call teamVotingRoundFinished q) = q
  /\ (forall vote,
        let q' := snd (addVote vote q) in
        (_teamVotingRoundIndex q' = _teamVotingRoundIndex q
         \/ _teamVotingRoundIndex q' = _teamVotingRoundIndex q + 1)
        /\ (_teamVotingRoundIndex q' = _teamVotingRoundIndex q + 1
            <-> teamVotingAllowed q = Ok true
                /\ fst (addVote vote q) = Ok tt
                /\ exists cur,
                     _getCurrentTeamVotingRound q = Some cur
                     /\ len (cur ++ [vote]) = _totalPlayers q
                     /\ approvals (cur ++ [vote]) <= rejections (cur ++ [vote]))).
Proof.
  split; [|split; [reflexivity|]].
  - unfold teamVotingRoundFinished.
    destruct (_getCurrentTeamVotingRound q) as [cur|] eqn:Hc.
    2:{ rewrite (no_round_teamVotingSucceeded q Hc). simpl. split; [done|].
        intros [?|(prev & _ & _ & ?)]; done. }
    rewrite (teamVotingSucceeded_eq q cur Hc). simpl.
    destruct (bool_decide (_totalPlayers q <= len cur) && majority cur);
      [split; auto|].
    destruct (_getPreviousTeamVotingRound q) as [prev|].
    2:{ split; [done|]. intros [?|(prev & ? & _)]; done. }
    unfold _everybodyVotedFor.
    destruct (decide (len prev = _totalPlayers q)) as [Hp|Hp].
    + rewrite (bool_decide_eq_true_2 _ Hp). simpl. split.
      * intros [= H]. apply bool_decide_eq_true in H. right. exists prev.
        repeat split; try done. destruct cur; [done|].
        unfold len in H. simpl in H. lia.
      * intros [?|(prev' & _ & _ & [= ->])]; [done|]. reflexivity.
    + rewrite (bool_decide_eq_false_2 _ Hp). split; [done|].
      intros [?|(prev' & [= <-] & ? & _)]; done.
  - intros vote. simpl. rewrite addVote_eq. unfold addVote_result.
    destruct (_getCurrentTeamVotingRound q) as [cur|] eqn:Hc.
    2:{ rewrite (no_round_teamVotingAllowed q Hc). simpl.
        split; [by left|]. split; [lia|]. by intros [? _]. }
    rewrite (teamVotingAllowed_eq q cur Hc).
    destruct (bool_decide (len cur < _totalPlayers q) || negb (majority cur)).
    2:{ destruct (_alreadyVotedFor (_questVotes q) vote); simpl;
          (split; [by left|]); (split; [lia|]); by intros [? _]. }
    destruct (_alreadyVotedFor cur vote); simpl.
    { split; [by left|]. split; [lia|]. by intros (_ & ? & _). }
    destruct (push_currentRound_fields q vote) as (_ & _ & _ & Hi & _).
    destruct (decide (len (cur ++ [vote]) = _totalPlayers q)) as [Hall|Hnot].
    + rewrite (bool_decide_eq_true_2 _ Hall). simpl.
      destruct (majority (cur ++ [vote])) eqn:Hm; simpl.
      * apply majority_true in Hm. rewrite Hi. split; [by left|].
        split; [lia|]. intros (_ & _ & cur' & [= <-] & _ & Hrej). lia.
      * assert (~ rejections (cur ++ [vote]) < approvals (cur ++ [vote])) as Hn.
        { intros Hlt. apply majority_true in Hlt. congruence. }
        split; [by right|]. split; [|done]. intros _.
        repeat split. exists cur. repeat split; [done|lia].
    + rewrite (bool_decide_eq_false_2 _ Hnot). simpl. rewrite Hi.
      split; [by left|]. split; [lia|].
      intros (_ & _ & cur' & [= <-] & Hfull & _). done.
Qed.

(** C3 (amended) at work: the only player rejects the first round. *)
Lemma teamVotingRoundFinished_amended_witness :
  let q := quest_1_1_1 in
  _getCurrentTeamVotingRound q = Some []
  /\ fst (addVote (reject "a") q) = Ok tt
  /\ teamVotingAllowed q = Ok true
  /\ _teamVotingRoundIndex (snd (addVote (reject "a") q)) = 1
  /\ teamVotingRoundFinished (snd (addVote (reject "a") q)) = Ok true.
Proof.
  split; [reflexivity|]. split; [reflexivity|]. split; [reflexivity|]. split.
  - apply (proj2 (proj2 (proj2 (teamVotingRoundFinished_amended quest_1_1_1))
                    (reject "a"))).
    split; [reflexivity|]. split; [reflexivity|]. exists [].
    split; [reflexivity|]. split; [reflexivity|]. vm_compute. discriminate.
  - apply (proj1 (teamVotingRoundFinished_amended
                    (snd (addVote (reject "a") quest_1_1_1)))).
    right. exists [reject "a"]. repeat split.
Defined.


(** C4, as stated, fails: [_addVoteForQuest] checks the username only, so
    after the team is approved a third voter is still recorded on a quest
    that needs one vote. *)
Lemma questVotes_bound_counterexample :
  let q := run_votes [approve "a"; approve "a"; approve "b"] quest_1_1_1 in
  ~ (len (_questVotes q) <= _votesNeeded q).
Proof. vm_compute. intros H. by apply H. Qed.

Lemma addVote_in_progress_bound vote q :
  len (_questVotes q) <= _votesNeeded q ->
  len (_questVotes (addVote_in_progress vote q))
  <= _votesNeeded (addVote_in_progress vote q).
Proof.
  intros Hle. unfold addVote_in_progress.
  destruct (_getCurrentTeamVotingRound q) as [cur|] eqn:Hc.
  2:{ rewrite (no_round_getStatus q Hc). done. }
  rewrite (getStatus_eq q cur Hc).
  destruct (bool_decide (len cur < _totalPlayers q) || negb (majority cur))
    eqn:Hteam; simpl.
  - rewrite addVote_eq. unfold addVote_result. rewrite Hc, Hteam.
    destruct (_alreadyVotedFor cur vote); [done|].
    destruct (push_currentRound_fields q vote) as (_ & Hv & _ & _ & Hq).
    destruct (bool_decide (len (cur ++ [vote]) = _totalPlayers q)
              && negb (majority (cur ++ [vote]))); simpl; rewrite Hv, Hq; done.
  - destruct (decide (len (_questVotes q) < _votesNeeded q)) as [Hlt|Hge].
    + rewrite (bool_decide_eq_true_2 _ Hlt).
      rewrite addVote_eq. unfold addVote_result. rewrite Hc, Hteam.
      destruct (_alreadyVotedFor (_questVotes q) vote); [done|].
      simpl. rewrite len_app. unfold len at 2. simpl. lia.
    + rewrite (bool_decide_eq_false_2 _ Hge).
      destruct (_questVotingFailed q); done.
Qed.

(** C4 (amended): when every [addVote] is made while the quest is in
    progress ([getStatus] is -1), on a quest created with a non-negative
    [votesNeeded], [questVotes.length <= votesNeeded] holds after each
    call. *)
Theorem questVotes_bound_in_progress config votes :
  0 <= votesNeeded config ->
  let q := run_votes_in_progress votes (new_Quest config) in
  len (_questVotes q) <= _votesNeeded q.
Proof.
  intros Hn. simpl.
  assert (len (_questVotes (new_Quest config)) <= _votesNeeded (new_Quest config))
    as Hinit by (unfold len; simpl; lia).
  revert Hinit. generalize (new_Quest config) as q.
  induction votes as [|vote votes IH]; intros q Hq; [done|].
  simpl. apply IH. by apply addVote_in_progress_bound.
Qed.

(** C4 (amended) at work: the third vote comes after the quest is over
    and is not passed on. *)
Lemma questVotes_bound_in_progress_witness :
  let config := mkConfig 1 1 1 in
  let votes := [approve "a"; approve "a"; approve "b"] in
  0 <= votesNeeded config
  /\ len (_questVotes (run_votes_in_progress votes (new_Quest config)))
     <= _votesNeeded (run_votes_in_progress votes (new_Quest config)).
Proof.
  split; [simpl; lia|].
  apply (questVotes_bound_in_progress (mkConfig 1 1 1)
           [approve "a"; approve "a"; approve "b"]).
  simpl. lia.
Defined.

(** C5, as stated, fails: a quest that succeeded (status 1) turns into a
    failed one (status 0) when a further voter rejects. *)
Lemma getStatus_terminal_counterexample :
  let q := run_votes [approve "a"; approve "a"] quest_1_1_1 in
  getStatus q = Ok 1
  /\ getStatus (snd (addVote (reject "b") q)) <> getStatus q.
Proof. split; [reflexivity|discriminate]. Qed.

(** C5 (amended): once [getStatus] is terminal it stays terminal after any
    [addVote] and never goes up: a 0 stays 0; a 1 stays 1 when the call
    raises or the vote approves, and can only drop to 0 through a reject
    vote of a username not among the quest votes. A caller that votes only
    while the quest is in progress leaves a terminal quest as it is. *)
Theorem getStatus_terminal_amended q vote (s : Z) :
  getStatus q = Ok s ->
  s <> -1 ->
  exists s' : Z,
    getStatus (snd (addVote vote q)) = Ok s'
    /\ s' <> -1
    /\ s' <= s
    /\ (getValue vote = true \/ fst (addVote vote q) <> Ok tt -> s' = s)
    /\ addVote_in_progress vote q = q.
Proof.
  intros Hs Hterm.
  destruct (_getCurrentTeamVotingRound q) as [cur|] eqn:Hc.
  2:{ rewrite (no_round_getStatus q Hc) in Hs. done. }
  assert (addVote_in_progress vote q = q) as Hguard.
  { unfold addVote_in_progress. rewrite Hs.
    destruct s as [|p|p]; try done; by destruct p. }
  rewrite (getStatus_eq q cur Hc) in Hs.
  destruct (bool_decide (len cur < _totalPlayers q) || negb (majority cur))
    eqn:Hteam; simpl in Hs; [injection Hs as <-; done|].
  destruct (decide (len (_questVotes q) < _votesNeeded q)) as [Hlt|Hge].
  { rewrite (bool_decide_eq_true_2 _ Hlt) in Hs. injection Hs as <-. done. }
  rewrite (bool_decide_eq_false_2 _ Hge) in Hs. injection Hs as Hs.
  rewrite addVote_eq. unfold addVote_result. rewrite Hc, Hteam.
  assert (getStatus q = Ok s) as Hq.
  { rewrite (getStatus_eq q cur Hc), Hteam. simpl.
    rewrite (bool_decide_eq_false_2 _ Hge). by rewrite Hs. }
  destruct (_alreadyVotedFor (_questVotes q) vote); simpl.
  { exists s. repeat split; done || lia. }
  set (q' := set_questVotes (_questVotes q ++ [vote]) q).
  assert (_getCurrentTeamVotingRound q' = Some cur) as Hc' by exact Hc.
  rewrite (getStatus_eq q' cur Hc'). simpl. rewrite Hteam. simpl.
  rewrite bool_decide_eq_false_2
    by (rewrite len_app; unfold len at 2; simpl; lia).
  rewrite _questVotingFailed_eq in *. simpl. rewrite rejections_app.
  assert (rejections [vote] = if getValue vote then 0 else 1) as Hv.
  { unfold rejections, len. rewrite filter_cons, filter_nil.
    destruct (getValue vote); [rewrite decide_False by done
                              |rewrite decide_True by done]; reflexivity. }
  rewrite Hv. eexists. split; [reflexivity|]. subst s.
  destruct (decide (_failsNeeded q <= rejections (_questVotes q))) as [Hf|Hf].
  - rewrite (bool_decide_eq_true_2 _ Hf).
    rewrite bool_decide_eq_true_2 by (destruct (getValue vote); lia).
    simpl. repeat split; try done.
  - rewrite (bool_decide_eq_false_2 _ Hf). simpl.
    repeat split.
    + match goal with |- context [negb ?b] => destruct (negb b) end; lia.
    + match goal with |- context [negb ?b] => destruct (negb b) end; lia.
    + intros [Ht|Hr]; [|done]. rewrite Ht.
      rewrite bool_decide_eq_false_2 by lia. reflexivity.
    + exact Hguard.
Qed.

(** C5 (amended) at work: a reject vote on a quest that succeeded. *)
Lemma getStatus_terminal_amended_witness :
  let q := run_votes [approve "a"; approve "a"] quest_1_1_1 in
  getStatus q = Ok 1
  /\ 1 <> -1
  /\ exists s' : Z,
       getStatus (snd (addVote (reject "b") q)) = Ok s'
       /\ s' <> -1
       /\ s' <= 1
       /\ (getValue (reject "b") = true
           \/ fst (addVote (reject "b") q) <> Ok tt -> s' = 1)
       /\ addVote_in_progress (reject "b") q = q.
Proof.
  split; [reflexivity|]. split; [discriminate|].
  apply (getStatus_terminal_amended
           (run_votes [approve "a"; approve "a"] quest_1_1_1) (reject "b") 1).
  - reflexivity.
  - discriminate.
Defined.


(** C6: [addVote] raises [AlreadyVotedForTeamError] (while team voting is
    allowed) or [AlreadyVotedForQuestError] (afterwards) if and only if a
    vote with the same username is already in the active collection, and
    whenever it raises, the quest (rounds, round index, quest votes) is
    what it was before the call. *)
Theorem addVote_raises_iff vote q :
  (forall teamVoting : bool,
     fst (addVote vote q) = Throw (AlreadyVotedError teamVoting)
     <-> teamVotingAllowed q = Ok teamVoting
         /\ exists votes, activeVotes q = Ok votes
              /\ exists v, v ∈ votes /\ getUsername v = getUsername vote)
  /\ (forall e, fst (addVote vote q) = Throw e -> snd (addVote vote q) = q).
Proof.
  rewrite addVote_eq. unfold addVote_result, activeVotes.
  destruct (_getCurrentTeamVotingRound q) as [cur|] eqn:Hc.
  2:{ rewrite (no_round_teamVotingAllowed q Hc). simpl. split; [|done].
      intros []; (split; [done|]); by intros [? _]. }
  rewrite (teamVotingAllowed_eq q cur Hc). simpl.
  destruct (bool_decide (len cur < _totalPlayers q) || negb (majority cur)).
  - destruct (_alreadyVotedFor cur vote) eqn:Hv; simpl.
    + split; [|done]. apply _alreadyVotedFor_true in Hv.
      intros []; simpl; split; try done.
      * intros _. split; [done|]. by exists cur.
      * by intros [? _].
    + split; [|done]. intros teamVoting. split; [done|].
      intros ([= <-] & votes & [= <-] & Hex).
      apply _alreadyVotedFor_true in Hex. congruence.
  - destruct (_alreadyVotedFor (_questVotes q) vote) eqn:Hv; simpl.
    + split; [|done]. apply _alreadyVotedFor_true in Hv.
      intros []; simpl; split; try done.
      * by intros [? _].
      * intros _. split; [done|]. by exists (_questVotes q).
    + split; [|done]. intros teamVoting. split; [done|].
      intros ([= <-] & votes & [= <-] & Hex).
      apply _alreadyVotedFor_true in Hex. congruence.
Qed.

(** C6 at work: a second team vote of the same player. *)
Lemma addVote_raises_iff_witness :
  let q := run_votes [approve "a"] (new_Quest (mkConfig 2 1 2)) in
  fst (addVote (reject "a") q) = Throw AlreadyVotedForTeamError
  /\ snd (addVote (reject "a") q) = q.
Proof.
  set (q := run_votes [approve "a"] (new_Quest (mkConfig 2 1 2))).
  assert (fst (addVote (reject "a") q) = Throw AlreadyVotedForTeamError) as H.
  { apply (proj1 (addVote_raises_iff (reject "a") q) true).
    split; [reflexivity|]. exists [approve "a"]. split; [reflexivity|].
    exists (approve "a"). split; [apply list_elem_of_here|reflexivity]. }
  split; [exact H|].
  exact (proj2 (addVote_raises_iff (reject "a") q) _ H).
Defined.


(** C9: on a quest whose current round exists, [serialize] returns an
    object with the four fields [failsNeeded], [votesNeeded], [teamVotes]
    (the serialized votes of the current round) and [questVotes], and
    nothing else: whatever the other rounds hold, the output is the
    same. *)
Theorem serialize_current_round_only q cur :
  _getCurrentTeamVotingRound q = Some cur ->
  serialize q
  = Ok (JObject
          [("failsNeeded", JNum (_failsNeeded q));
           ("votesNeeded", JNum (_votesNeeded q));
           ("teamVotes", JArray (map Vote_serialize cur));
           ("questVotes", JArray (map Vote_serialize (_questVotes q)))])
  /\ (forall rounds : list (list Vote),
        array_get rounds (_teamVotingRoundIndex q) = Some cur ->
        serialize (set_teamVoteRounds rounds q) = serialize q).
Proof.
  intros Hc. unfold serialize. rewrite Hc. split; [reflexivity|].
  intros rounds Hr. unfold _getCurrentTeamVotingRound. simpl.
  rewrite Hr. reflexivity.
Qed.

(** C9 at work: the rejected first round is not in the output. *)
Lemma serialize_current_round_only_witness :
  let q := run_votes [reject "a"; reject "b"; approve "a"]
             (new_Quest (mkConfig 1 1 2)) in
  _getCurrentTeamVotingRound q = Some [approve "a"]
  /\ serialize q
     = Ok (JObject
             [("failsNeeded", JNum 1);
              ("votesNeeded", JNum 1);
              ("teamVotes", JArray [Vote_serialize (approve "a")]);
              ("questVotes", JArray [])]).
Proof.
  split; [reflexivity|].
  exact (proj1 (serialize_current_round_only
                  (run_votes [reject "a"; reject "b"; approve "a"]
                     (new_Quest (mkConfig 1 1 2)))
                  [approve "a"] eq_refl)).
Defined.

End QuestClaims.

(** ** The state machine: transition table and initialisation *)

Section MachineClaims.

Implicit Types (m : GameStateMachine) (f : FiniteStateMachine)
  (s from to : GameState) (g : Game).

Lemma initTransitions_table m :
  exists f, fsm (initTransitions m) = Some f
            /\ currentState f = Preparation
            /\ transitionFunctions f = init_table.
Proof. eexists. repeat split. Qed.

Lemma init_table_fresh g w :
  exists f, fsm (init g (new_GameStateMachine w)) = Some f
            /\ transitionFunctions f = init_table.
Proof. eexists. split; reflexivity. Qed.

(** With the table of [initTransitions], [canGo] is the relation of the
    specification. *)
Lemma canGo_permitted f s :
  transitionFunctions f = init_table ->
  canGo s f = permitted (currentState f) s.
Proof.
  intros Ht. unfold canGo. rewrite Ht.
  destruct (currentState f), s; vm_compute; reflexivity.
Qed.

Lemma transitionTo_keeps_table s m f :
  fsm m = Some f ->
  exists f', fsm (snd (transitionTo s m)) = Some f'
             /\ transitionFunctions f' = transitionFunctions f.
Proof.
  intros Hf. unfold transitionTo. rewrite Hf. unfold go.
  destruct (canGo s f); simpl.
  - destruct (run_listeners _ _ _ _) as [calls pending]. simpl. eauto.
  - eauto.
Qed.

Lemma run_transitions_keeps_table path m f :
  fsm m = Some f ->
  exists f', fsm (run_transitions path m) = Some f'
             /\ transitionFunctions f' = transitionFunctions f.
Proof.
  revert m f. induction path as [|s path IH]; intros m f Hf; [eauto|].
  simpl. destruct (transitionTo_keeps_table s m f Hf) as (f1 & Hf1 & Ht1).
  destruct (IH _ f1 Hf1) as (f2 & Hf2 & Ht2). exists f2. split; congruence.
Qed.

(** C7: on an initialised machine every state is the current state after
    some sequence of transitions, and, however the machine got to its
    current state, [transitionTo] succeeds and moves to the requested state
    exactly for the ten transitions of the table; any other request fails
    with [IllegalTransition] and leaves the machine as it was. *)
Theorem transitions_exact g w :
  let m0 := init g (new_GameStateMachine w) in
  (forall from, exists path f,
      fsm (run_transitions path m0) = Some f /\ currentState f = from)
  /\ (forall (path : list GameState) to,
        let m := run_transitions path m0 in
        exists f,
          fsm m = Some f
          /\ if permitted (currentState f) to
             then exists t f',
                    fst (transitionTo to m) = Ok t
                    /\ fsm (snd (transitionTo to m)) = Some f'
                    /\ currentState f' = to
             else transitionTo to m = (Throw IllegalTransition, m)).
Proof.
  intros m0. split.
  - intros from.
    exists (match from with
            | Preparation => []
            | TeamProposition => [TeamProposition]
            | TeamVoting => [TeamProposition; TeamVoting]
            | TeamVotingPreApproved => [TeamProposition; TeamVotingPreApproved]
            | QuestVoting => [TeamProposition; TeamVoting; QuestVoting]
            | Assassination =>
                [TeamProposition; TeamVoting; QuestVoting; Assassination]
            | Finish => [TeamProposition; TeamVoting; QuestVoting; Finish]
            end).
    destruct from; eexists; split; reflexivity.
  - intros path to m.
    destruct (init_table_fresh g w) as (f0 & Hf0 & Ht0).
    destruct (run_transitions_keeps_table path _ f0 Hf0) as (f & Hf & Ht).
    fold m0 m in Hf. exists f. split; [exact Hf|].
    rewrite <- (canGo_permitted f to) by congruence.
    unfold transitionTo. rewrite Hf. unfold go.
    destruct (canGo to f); [|reflexivity].
    destruct (run_listeners _ _ _ _) as [calls pending]. simpl. eauto.
Qed.

(** C10: once [init] has run, any further [init] calls, with whatever
    games, leave the machine exactly as the first call left it. *)
Theorem init_idempotent m g (games : list Game) :
  fold_left (fun m' g' => init g' m') games (init g m) = init g m.
Proof.
  assert (isInit (init g m) = true) as Hinit.
  { unfold init. destruct (isInit m) eqn:H; [exact H|reflexivity]. }
  revert Hinit. generalize (init g m) as m1.
  induction games as [|g' games IH]; intros m1 Hinit; [reflexivity|].
  simpl. unfold init at 2. rewrite Hinit. by apply IH.
Qed.

End MachineClaims.

(** ** The snapshot walker *)

Section SnapshotFacts.

Implicit Types (k : string) (v : JsVal) (fields D : list (string * JsVal)).

Lemma replace_no_underscore k :
  no_underscore k = true -> replace_underscore k = k.
Proof.
  induction k as [|c rest IH]; [done|]. simpl.
  destruct (decide (c = underscore)); [done|]. intros H. by rewrite IH.
Qed.

Lemma strip_no_underscore k :
  no_underscore k = true -> strip_leading_underscore k = k.
Proof.
  destruct k as [|c rest]; [done|]. simpl.
  by destruct (decide (c = underscore)).
Qed.

(** On the names the engine uses, removing the first underscore is
    removing the leading one. *)
Lemma key_ok_no_underscore k :
  key_ok k = true -> no_underscore (strip_leading_underscore k) = true.
Proof. unfold key_ok. intros H. by apply andb_true_iff in H as [? _]. Qed.

Lemma replace_is_strip k :
  key_ok k = true -> replace_underscore k = strip_leading_underscore k.
Proof.
  intros H%key_ok_no_underscore. destruct k as [|c rest]; [done|].
  simpl in *. destruct (decide (c = underscore)); [done|].
  simpl in H. destruct (decide (c = underscore)); [done|].
  by rewrite replace_no_underscore.
Qed.

Lemma strip_eq_key k k' :
  key_ok k = true ->
  strip_leading_underscore k = k' ->
  strip_leading_underscore k' = strip_leading_underscore k.
Proof.
  intros H%key_ok_no_underscore <-. by apply strip_no_underscore.
Qed.

Lemma unset_fresh fields k : fresh k fields -> unset fields k = fields.
Proof.
  unfold unset. induction 1 as [|p l Hp Hl IH]; [done|].
  rewrite filter_cons, decide_True by done. by rewrite IH.
Qed.

Lemma obj_set_fresh fields k v :
  fresh k fields -> obj_set fields k v = fields ++ [(k, v)].
Proof.
  induction 1 as [|[k' v'] l Hp Hl IH]; [done|]. simpl in *.
  rewrite decide_False by done. by rewrite IH.
Qed.

Lemma obj_set_last fields k v v' :
  fresh k fields ->
  obj_set (fields ++ [(k, v)]) k v' = fields ++ [(k, v')].
Proof.
  induction 1 as [|[k' w] l Hp Hl IH]; simpl in *.
  - by rewrite decide_True.
  - rewrite decide_False by done. by rewrite IH.
Qed.

Lemma fresh_app k fields D :
  fresh k (fields ++ D) <-> fresh k fields /\ fresh k D.
Proof. apply Forall_app. Qed.

Lemma snapshot_object fields :
  snapshot (JObject fields) = JObject (snap_fields fields).
Proof. reflexivity. Qed.

Lemma snapshot_not_object v : isObject v = false -> snapshot v = v.
Proof. by destruct v. Qed.

Lemma not_in_strip_fresh k fields :
  strip_leading_underscore k ∉ map strip_fst fields -> fresh k fields.
Proof.
  intros Hn. apply Forall_forall. intros p Hp Heq. apply Hn.
  apply list_elem_of_In, in_map_iff. exists p.
  split; [unfold strip_fst; by rewrite Heq|].
  exact (proj1 (list_elem_of_In _ _) Hp).
Qed.

Lemma not_in_strip_fresh_stripped k fields :
  Forall (fun p => key_ok (fst p) = true) fields ->
  key_ok k = true ->
  strip_leading_underscore k ∉ map strip_fst fields ->
  fresh (strip_leading_underscore k) fields.
Proof.
  intros Hok Hk Hn. apply Forall_forall. intros p Hp Heq. apply Hn.
  apply list_elem_of_In, in_map_iff. exists p.
  split; [|exact (proj1 (list_elem_of_In _ _) Hp)].
  unfold strip_fst. by apply strip_eq_key.
Qed.

(** One object of a plain tree: the walker leaves the fields of its
    snapshot, in order, after those already rebuilt. *)
Lemma each_field_plain (walk : JsVal -> option (Res JsVal)) fields :
  forall D,
    Forall (fun p => key_ok (fst p) = true) fields ->
    NoDup (map strip_fst fields) ->
    Forall (fun p => fresh (fst p) D /\ fresh (strip_fst p) D) fields ->
    Forall (fun p => isObject (snd p) = true -> useless (snd p) = false ->
                     walk (snd p) = Some (Ok (snapshot (snd p)))) fields ->
    each_field useless walk (map fst fields) (fields ++ D)
    = Some (Ok (D ++ snap_fields fields)).
Proof.
  induction fields as [|[k x] fields IH]; intros D Hok Hnd HD Hwalk.
  { simpl. by rewrite app_nil_r. }
  apply Forall_cons in Hok as [Hk Hok]. simpl in Hk.
  apply NoDup_cons in Hnd as [Hnew Hnd]. unfold strip_fst at 1 in Hnew.
  simpl in Hnew.
  apply Forall_cons in HD as [[HkD HsD] HD]. simpl in HkD.
  unfold strip_fst in HsD. simpl in HsD.
  apply Forall_cons in Hwalk as [Hx Hwalk]. simpl in Hx.
  pose proof (not_in_strip_fresh k fields Hnew) as Hfresh.
  pose proof (not_in_strip_fresh_stripped k fields Hok Hk Hnew) as Hfresh'.
  simpl. rewrite decide_True by done.
  assert (unset ((k, x) :: fields ++ D) k = fields ++ D) as ->.
  { unfold unset. rewrite filter_cons, decide_False by (simpl; tauto).
    apply unset_fresh, fresh_app. done. }
  destruct (useless x) eqn:Hu.
  { simpl. by apply IH. }
  rewrite (replace_is_strip k Hk).
  set (k' := strip_leading_underscore k) in *.
  assert (fresh k' (fields ++ D)) as Hk' by (by apply fresh_app).
  rewrite (obj_set_fresh _ k' x Hk').
  assert (Forall (fun p => fresh (fst p) (D ++ [(k', snapshot x)])
                           /\ fresh (strip_fst p) (D ++ [(k', snapshot x)]))
            fields) as HD'.
  { apply Forall_forall. intros p Hp.
    rewrite Forall_forall in HD. destruct (HD p Hp) as [H1 H2].
    unfold fresh in Hfresh'. rewrite Forall_forall in Hfresh'.
    split; apply fresh_app; (split; [done|]);
      apply Forall_cons; (split; [|by apply Forall_nil]); simpl.
    - intros Heq. by apply (Hfresh' p Hp).
    - intros Heq. apply Hnew. rewrite Heq.
      apply list_elem_of_In, in_map.
      exact (proj1 (list_elem_of_In _ _) Hp). }
  destruct (isObject x) eqn:Hobj.
  - rewrite (Hx eq_refl eq_refl).
    rewrite (obj_set_last _ k' x (snapshot x) Hk').
    rewrite <- !(app_assoc fields). rewrite (IH _ Hok Hnd HD' Hwalk).
    simpl. by rewrite <- app_assoc.
  - rewrite <- (snapshot_not_object x Hobj) at 1.
    rewrite <- !(app_assoc fields). rewrite (IH _ Hok Hnd HD' Hwalk).
    simpl. by rewrite <- app_assoc.
Qed.

Lemma plain_tree_object fields :
  plain_tree (JObject fields) = true ->
  Forall (fun p => key_ok (fst p) = true /\ plain_tree (snd p) = true) fields
  /\ NoDup (map strip_fst fields)
  /\ arrayLike_length fields = None.
Proof.
  simpl. intros H. apply andb_true_iff in H as [H Hlike].
  apply andb_true_iff in H as [Hall Hnd].
  apply bool_decide_eq_true in Hnd.
  split; [|split; [exact Hnd|by destruct (arrayLike_length fields)]].
  apply Forall_forall. intros p Hp.
  rewrite forallb_forall in Hall.
  specialize (Hall p (proj1 (list_elem_of_In _ _) Hp)).
  by apply andb_true_iff in Hall.
Qed.

Lemma depth_field fields p :
  p ∈ fields -> (depth (snd p) < depth (JObject fields))%nat.
Proof.
  intros Hp. simpl.
  assert (depth (snd p) ∈ map (fun p => depth (snd p)) fields) as Hin.
  { apply list_elem_of_In, in_map_iff. exists p.
    split; [done|exact (proj1 (list_elem_of_In _ _) Hp)]. }
  apply max_list_elem_of_le in Hin. lia.
Qed.

(** With fuel beyond its depth, the walker turns a plain tree into its
    snapshot. *)
Lemma _omitUselessFields_plain (fuel : nat) :
  forall v,
    plain_tree v = true ->
    (depth v < fuel)%nat ->
    _omitUselessFields fuel v useless = Some (Ok (snapshot v)).
Proof.
  induction fuel as [|fuel IH]; intros v Hplain Hdepth; [lia|].
  destruct v as [| | | | | | |elems|fields]; try reflexivity.
  - destruct elems; [reflexivity|discriminate].
  - destruct (plain_tree_object fields Hplain) as (Hall & Hnd & Hlike).
    simpl. rewrite Hlike. rewrite <- (app_nil_r fields) at 2.
    rewrite (each_field_plain (fun v => _omitUselessFields fuel v useless)
               fields []).
    + reflexivity.
    + eapply Forall_impl; [exact Hall|]. by intros p [? _].
    + exact Hnd.
    + apply Forall_forall. intros p _. split; constructor.
    + apply Forall_forall. intros p Hp _ _. apply IH.
      * rewrite Forall_forall in Hall. by destruct (Hall p Hp).
      * pose proof (depth_field fields p Hp). lia.
Qed.


(** C8: the snapshot constructor does not do what is specified of it on
    every object graph. For the game-like object
    [{_id: 7, _players: [{_username: 'user-1'}]}] the specified snapshot
    is [{id: 7, players: [{username: 'user-1'}]}], but the constructor
    raises [TypeError], whatever the depth allowed to the walk: in an
    array the walker is handed the numeric index and calls [replace] on
    it. And for [{created_at: 0}], a name with no leading underscore, the
    specified snapshot is the object itself, but the constructor returns
    [{createdat: 0}]: its pattern removes the first underscore wherever
    it stands. *)
Theorem snapshot_diverges :
  let obj :=
    JObject [("_id", JNum 7);
             ("_players", JArray [JObject [("_username", JStr "user-1")]])] in
  let obj' := JObject [("created_at", JNum 0)] in
  snapshot_spec obj
  = JObject [("id", JNum 7);
             ("players", JArray [JObject [("username", JStr "user-1")]])]
  /\ (forall fuel : nat,
        new_GameState (S (S fuel)) obj = Some (Throw TypeError))
  /\ ~ (exists fuel, new_GameState fuel obj = Some (Ok (snapshot_spec obj)))
  /\ snapshot_spec obj' = obj'
  /\ (forall fuel : nat,
        new_GameState (S fuel) obj'
        = Some (Ok (JObject [("createdat", JNum 0)])))
  /\ ~ (exists fuel, new_GameState fuel obj' = Some (Ok (snapshot_spec obj'))).
Proof.
  intros obj obj'.
  assert (forall fuel : nat,
            new_GameState (S (S fuel)) obj = Some (Throw TypeError)) as Hraise
    by (intros fuel; reflexivity).
  assert (forall fuel : nat,
            new_GameState (S fuel) obj'
            = Some (Ok (JObject [("createdat", JNum 0)]))) as Hname
    by (intros fuel; reflexivity).
  split; [reflexivity|]. split; [exact Hraise|]. split.
  { intros [fuel H]. destruct fuel as [|[|fuel]].
    - discriminate H.
    - vm_compute in H. discriminate H.
    - rewrite Hraise in H. discriminate H. }
  split; [reflexivity|]. split; [exact Hname|].
  intros [fuel H]. destruct fuel as [|fuel].
  - discriminate H.
  - rewrite Hname in H. vm_compute in H. discriminate H.
Qed.

(** X22: on a tree of plain objects whose field names carry no
    underscore beyond a leading one and stay distinct once it is stripped
    (and whose arrays are empty), the snapshot constructor returns, given
    fuel beyond the depth of the tree, the tree in which every field whose
    value is a function or a promise, settled or not, is omitted, every
    remaining field name has its leading underscore stripped, and nested
    objects are rebuilt by the same rules. *)
Theorem snapshot_on_plain_trees fields (fuel : nat) :
  plain_tree (JObject fields) = true ->
  (depth (JObject fields) < fuel)%nat ->
  new_GameState fuel (JObject fields)
  = Some (Ok (snapshot_spec (JObject fields))).
Proof.
  intros Hplain Hdepth. unfold new_GameState. simpl cloneDeep.
  simpl Object_assign.
  change (snapshot_spec (JObject fields)) with (snapshot (JObject fields)).
  by apply _omitUselessFields_plain.
Qed.

(** X22 at work on a small game-like object. *)
Lemma snapshot_on_plain_trees_witness :
  let fields := [("_id", JNum 7); ("_cb", JFunction "f");
                 ("_ready", JPromise true); ("state", JStr "Finish");
                 ("_inner", JObject [("_x", JStr "a"); ("p", JPromise false)])]
  in
  plain_tree (JObject fields) = true
  /\ (depth (JObject fields) < 3)%nat
  /\ new_GameState 3 (JObject fields)
     = Some (Ok (JObject [("id", JNum 7); ("state", JStr "Finish");
                          ("inner", JObject [("x", JStr "a")])])).
Proof.
  split; [reflexivity|]. split; [simpl; lia|].
  apply (snapshot_on_plain_trees
           [("_id", JNum 7); ("_cb", JFunction "f");
            ("_ready", JPromise true); ("state", JStr "Finish");
            ("_inner", JObject [("_x", JStr "a"); ("p", JPromise false)])] 3).
  - reflexivity.
  - simpl. lia.
Defined.

End SnapshotFacts.

(** ** More about the quest: what [addVote] keeps *)

Section QuestHistory.

Implicit Types (q : Quest) (vote : Vote) (votes cur : list Vote).

(** The three things a call of [addVote] can do: nothing (it raised), a
    vote at the end of the current round with the index kept or moved by
    one, or a vote at the end of the quest votes. *)
Lemma addVote_step vote q :
  snd (addVote vote q) = q
  \/ (exists cur (i' : Z),
        _getCurrentTeamVotingRound q = Some cur
        /\ teamVotingAllowed q = Ok true
        /\ _alreadyVotedFor cur vote = false
        /\ (i' = _teamVotingRoundIndex q \/ i' = _teamVotingRoundIndex q + 1)
        /\ snd (addVote vote q)
           = mkQuest (_votesNeeded q) (_failsNeeded q) (_totalPlayers q)
               (<[Z.to_nat (_teamVotingRoundIndex q) := cur ++ [vote]]>
                  (_teamVoteRounds q))
               i' (_questVotes q))
  \/ (exists cur,
        _getCurrentTeamVotingRound q = Some cur
        /\ teamVotingAllowed q = Ok false
        /\ _alreadyVotedFor (_questVotes q) vote = false
        /\ snd (addVote vote q) = set_questVotes (_questVotes q ++ [vote]) q).
Proof.
  rewrite addVote_eq. unfold addVote_result.
  destruct (_getCurrentTeamVotingRound q) as [cur|] eqn:Hc; [|by left].
  rewrite (teamVotingAllowed_eq q cur Hc).
  destruct (bool_decide (len cur < _totalPlayers q) || negb (majority cur)).
  - destruct (_alreadyVotedFor cur vote) eqn:Hv; [by left|].
    right. left. unfold push_currentRound. rewrite Hc.
    destruct (bool_decide (len (cur ++ [vote]) = _totalPlayers q)
              && negb (majority (cur ++ [vote]))); simpl.
    + exists cur, (_teamVotingRoundIndex q + 1). repeat split; auto.
    + exists cur, (_teamVotingRoundIndex q). repeat split; auto.
  - destruct (_alreadyVotedFor (_questVotes q) vote) eqn:Hv; [by left|].
    right. right. exists cur. repeat split; auto.
Qed.

Lemma run_votes_preserves (P : Quest -> Prop) :
  (forall q vote, P q -> P (snd (addVote vote q))) ->
  forall votes q, P q -> P (run_votes votes q).
Proof.
  intros Hstep votes. induction votes as [|vote votes IH]; intros q Hq; [done|].
  simpl. by apply IH, Hstep.
Qed.

Lemma run_votes_app votes more q :
  run_votes (votes ++ more) q = run_votes more (run_votes votes q).
Proof.
  revert q. induction votes as [|vote votes IH]; intros q; [done|].
  simpl. apply IH.
Qed.

Lemma _alreadyVotedFor_false votes vote :
  _alreadyVotedFor votes vote = false ->
  getUsername vote ∉ usernames votes.
Proof.
  intros Hv Hin. apply list_elem_of_In, in_map_iff in Hin as (v & Heq & Hin).
  assert (_alreadyVotedFor votes vote = true) as Ht; [|congruence].
  apply _alreadyVotedFor_true. exists v.
  split; [by apply list_elem_of_In|done].
Qed.

Lemma usernames_snoc_NoDup votes vote :
  NoDup (usernames votes) ->
  _alreadyVotedFor votes vote = false ->
  NoDup (usernames (votes ++ [vote])).
Proof.
  intros Hnd Hv. unfold usernames. rewrite map_app. simpl.
  apply NoDup_app. split; [done|]. split.
  - intros u Hu Hin. apply list_elem_of_singleton in Hin as ->.
    by apply (_alreadyVotedFor_false votes vote).
  - apply NoDup_singleton.
Qed.

Lemma addVote_unique_voters vote q :
  unique_voters q -> unique_voters (snd (addVote vote q)).
Proof.
  intros [Hrounds Hquest].
  destruct (addVote_step vote q)
    as [->|[(cur & i' & Hc & _ & Hv & _ & ->)|(cur & _ & _ & Hv & ->)]];
    [done| |].
  - split; [|done]. simpl. apply Forall_insert; [done|].
    apply usernames_snoc_NoDup; [|done].
    apply array_get_Some in Hc as [_ Hc].
    by apply (Forall_lookup_1 _ _ _ _ Hrounds Hc).
  - split; [done|]. simpl. by apply usernames_snoc_NoDup.
Qed.

(** X1: no player is ever recorded twice in the same team-voting round or
    twice among the quest votes, whatever the votes submitted. *)
Theorem voters_unique config votes :
  unique_voters (run_votes votes (new_Quest config)).
Proof.
  apply run_votes_preserves.
  - intros q vote. apply addVote_unique_voters.
  - split; simpl.
    + repeat constructor.
    + constructor.
Qed.


Lemma addVote_index vote q :
  _teamVotingRoundIndex q <= _teamVotingRoundIndex (snd (addVote vote q))
  /\ (0 <= _teamVotingRoundIndex q <= 5 ->
      length (_teamVoteRounds q) = 5%nat ->
      _teamVotingRoundIndex (snd (addVote vote q)) <= 5
      /\ length (_teamVoteRounds (snd (addVote vote q))) = 5%nat).
Proof.
  destruct (addVote_step vote q)
    as [->|[(cur & i' & Hc & _ & _ & Hi & ->)|(cur & _ & _ & _ & ->)]];
    simpl; try (split; [lia|]; intros; split; [lia|done]).
  split; [lia|]. intros Hidx Hlen. rewrite length_insert. split; [|done].
  apply array_get_Some in Hc as [_ Hc]. apply lookup_lt_Some in Hc. lia.
Qed.

Lemma addVote_same_config vote q : same_config q (snd (addVote vote q)).
Proof.
  destruct (addVote_step vote q)
    as [->|[(cur & i' & _ & _ & _ & _ & ->)|(cur & _ & _ & _ & ->)]];
    by repeat split.
Qed.

Lemma run_votes_same_config votes q : same_config q (run_votes votes q).
Proof.
  revert q. induction votes as [|vote votes IH]; intros q; [by repeat split|].
  simpl. destruct (addVote_same_config vote q) as (H1 & H2 & H3).
  destruct (IH (snd (addVote vote q))) as (H1' & H2' & H3').
  repeat split; congruence.
Qed.

Lemma run_votes_index votes q :
  _teamVotingRoundIndex q <= _teamVotingRoundIndex (run_votes votes q)
  /\ (0 <= _teamVotingRoundIndex q <= 5 ->
      length (_teamVoteRounds q) = 5%nat ->
      _teamVotingRoundIndex (run_votes votes q) <= 5
      /\ length (_teamVoteRounds (run_votes votes q)) = 5%nat).
Proof.
  revert q. induction votes as [|vote votes IH]; intros q.
  { simpl. split; [lia|]. intros; split; [lia|done]. }
  simpl. destruct (addVote_index vote q) as [Hle Hb].
  destruct (IH (snd (addVote vote q))) as [Hle' Hb'].
  split; [lia|]. intros Hidx Hlen. destruct (Hb Hidx Hlen) as [H5 Hl].
  apply Hb'; [lia|done].
Qed.


Lemma history_extends_refl q : history_extends q q.
Proof. repeat split; [|done]. intros j round Hj. by exists round. Qed.

Lemma history_extends_trans q1 q2 q3 :
  history_extends q1 q2 -> history_extends q2 q3 -> history_extends q1 q3.
Proof.
  intros (Hl1 & Hr1 & Hq1) (Hl2 & Hr2 & Hq2). split; [congruence|]. split.
  - intros j round Hj. destruct (Hr1 j round Hj) as (r2 & Hj2 & Hp2).
    destruct (Hr2 j r2 Hj2) as (r3 & Hj3 & Hp3). exists r3.
    split; [done|]. by transitivity r2.
  - by transitivity (_questVotes q2).
Qed.

Lemma addVote_history_extends vote q :
  history_extends q (snd (addVote vote q)).
Proof.
  destruct (addVote_step vote q)
    as [->|[(cur & i' & Hc & _ & _ & _ & ->)|(cur & _ & _ & _ & ->)]].
  - apply history_extends_refl.
  - apply array_get_Some in Hc as [Hi Hc]. split; simpl.
    { apply length_insert. } split; [|done].
    intros j round Hj.
    destruct (decide (j = Z.to_nat (_teamVotingRoundIndex q))) as [->|Hne].
    + exists (cur ++ [vote]). split.
      * apply list_lookup_insert_eq. by apply lookup_lt_Some in Hc.
      * assert (round = cur) as -> by congruence. by apply prefix_app_r.
    + exists round. split; [|done]. by rewrite list_lookup_insert_ne.
  - split; simpl; [done|]. split.
    + intros j round Hj. by exists round.
    + by apply prefix_app_r.
Qed.

(** X3: [addVote] only ever appends: after any sequence of calls on any
    quest, every round and the quest votes still begin with the votes they
    held before, in the same order, and the three numbers of the
    configuration are what they were. *)
Theorem votes_append_only votes q :
  history_extends q (run_votes votes q)
  /\ same_config q (run_votes votes q).
Proof.
  split; [|apply run_votes_same_config].
  revert q. induction votes as [|vote votes IH]; intros q.
  - apply history_extends_refl.
  - simpl. eapply history_extends_trans; [apply addVote_history_extends|].
    apply IH.
Qed.


Lemma no_round_stays votes q :
  _getCurrentTeamVotingRound q = None -> run_votes votes q = q.
Proof.
  intros Hc. induction votes as [|vote votes IH]; [done|].
  simpl. rewrite addVote_eq. unfold addVote_result. rewrite Hc. exact IH.
Qed.

(** X4: a quest whose round index points at no round (past the fifth) is
    beyond use: every query that looks at the current round and
    [serialize] raise [TypeError], [addVote] raises [TypeError] whatever
    the vote, and no sequence of calls changes the quest any more. *)
Theorem no_current_round_stuck q :
  _getCurrentTeamVotingRound q = None ->
  teamVotingAllowed q = Throw TypeError
  /\ teamVotingSucceeded q = Throw TypeError
  /\ questVotingAllowed q = Throw TypeError
  /\ teamVotingRoundFinished q = Throw TypeError
  /\ getStatus q = Throw TypeError
  /\ isComplete q = Throw TypeError
  /\ serialize q = Throw TypeError
  /\ (forall vote, addVote vote q = (Throw TypeError, q))
  /\ (forall votes, run_votes votes q = q).
Proof.
  intros Hc.
  pose proof (no_round_teamVotingAllowed q Hc) as Ha.
  pose proof (no_round_teamVotingSucceeded q Hc) as Hs.
  pose proof (no_round_getStatus q Hc) as Hg.
  repeat split; try done.
  - unfold questVotingAllowed. by rewrite Hs.
  - unfold teamVotingRoundFinished. by rewrite Hs.
  - unfold isComplete. by rewrite Hg.
  - unfold serialize. by rewrite Hc.
  - intros vote. rewrite addVote_eq. unfold addVote_result. by rewrite Hc.
  - intros votes. by apply no_round_stays.
Qed.

(** X4 at work: one player who rejects five times. *)
Lemma no_current_round_stuck_witness :
  let q := run_votes [reject "a"; reject "a"; reject "a"; reject "a";
                      reject "a"] quest_1_1_1 in
  _getCurrentTeamVotingRound q = None
  /\ getStatus q = Throw TypeError
  /\ addVote (approve "a") q = (Throw TypeError, q).
Proof.
  set (q := run_votes [reject "a"; reject "a"; reject "a"; reject "a";
                       reject "a"] quest_1_1_1).
  assert (_getCurrentTeamVotingRound q = None) as Hc by reflexivity.
  split; [exact Hc|].
  destruct (no_current_round_stuck q Hc)
    as (_ & _ & _ & _ & Hg & _ & _ & Hadd & _).
  split; [exact Hg|exact (Hadd (approve "a"))].
Defined.

(** X5: on a quest driven by [addVote], [isLastRoundOfTeamVoting] holds
    exactly at round index 4; a vote that then moves the index on (the
    fifth round is rejected) leaves the quest without a current round, and
    [getStatus] raises [TypeError] from then on. *)
Theorem last_round_then_none config votes vote :
  let q := run_votes votes (new_Quest config) in
  let q' := snd (addVote vote q) in
  (isLastRoundOfTeamVoting q = true <-> getTeamVotingRoundIndex q = 4)
  /\ (isLastRoundOfTeamVoting q = true ->
      getTeamVotingRoundIndex q' = getTeamVotingRoundIndex q + 1 ->
      _getCurrentTeamVotingRound q' = None
      /\ forall more, getStatus (run_votes more q') = Throw TypeError).
Proof.
  intros q q'. unfold getTeamVotingRoundIndex, isLastRoundOfTeamVoting.
  destruct (run_votes_index votes (new_Quest config)) as [_ Hb].
  destruct (Hb ltac:(simpl; lia) eq_refl) as [_ Hl]. fold q in Hl.
  rewrite Hl. rewrite bool_decide_eq_true.
  split; [split; lia|]. intros H4 Hnext.
  destruct (addVote_index vote q) as [_ Hb'].
  assert (_getCurrentTeamVotingRound q' = None) as Hnone.
  { unfold _getCurrentTeamVotingRound, array_get. fold q'. rewrite Hnext.
    destruct (decide (0 <= _teamVotingRoundIndex q + 1)); [|done].
    apply lookup_ge_None.
    destruct (addVote_history_extends vote q) as (Hlen & _). fold q' in Hlen.
    rewrite Hlen, Hl. lia. }
  split; [exact Hnone|]. intros more.
  rewrite (no_round_stays more q' Hnone). by apply no_round_getStatus.
Qed.

(** X5 at work: four rejected rounds, then a fifth rejection. *)
Lemma last_round_then_none_witness :
  let q := run_votes [reject "a"; reject "a"; reject "a"; reject "a"]
             quest_1_1_1 in
  isLastRoundOfTeamVoting q = true
  /\ getTeamVotingRoundIndex (snd (addVote (reject "a") q))
     = getTeamVotingRoundIndex q + 1
  /\ _getCurrentTeamVotingRound (snd (addVote (reject "a") q)) = None.
Proof.
  split; [reflexivity|]. split; [reflexivity|].
  exact (proj1 (proj2 (last_round_then_none (mkConfig 1 1 1)
                         [reject "a"; reject "a"; reject "a"; reject "a"]
                         (reject "a"))
                  eq_refl eq_refl)).
Defined.

(** X6: [isComplete] returns true exactly when the current round holds at
    least [totalPlayers] votes with a strict majority of approvals and the
    quest votes are at least [votesNeeded]; it returns false exactly when
    [getStatus] is -1. *)
Theorem isComplete_iff q :
  (isComplete q = Ok true
   <-> exists cur, _getCurrentTeamVotingRound q = Some cur
                   /\ _totalPlayers q <= len cur
                   /\ rejections cur < approvals cur
                   /\ _votesNeeded q <= len (_questVotes q))
  /\ (isComplete q = Ok false <-> getStatus q = Ok (-1)).
Proof.
  unfold isComplete.
  destruct (_getCurrentTeamVotingRound q) as [cur|] eqn:Hc.
  2:{ rewrite (no_round_getStatus q Hc). simpl. split; split; try done.
      by intros (cur & ? & _). }
  rewrite (getStatus_eq q cur Hc). simpl.
  destruct (decide (len cur < _totalPlayers q)) as [Hlt|Hge].
  { rewrite (bool_decide_eq_true_2 _ Hlt). simpl. split; split; try done.
    intros (cur' & [= <-] & ? & _). lia. }
  rewrite (bool_decide_eq_false_2 _ Hge). simpl.
  destruct (majority cur) eqn:Hm; simpl.
  2:{ split; split; try done. intros (cur' & [= <-] & _ & Hmaj & _).
      apply majority_true in Hmaj. congruence. }
  apply majority_true in Hm.
  destruct (decide (len (_questVotes q) < _votesNeeded q)) as [Hq|Hq].
  { rewrite (bool_decide_eq_true_2 _ Hq). simpl. split; split; try done.
    intros (cur' & _ & _ & _ & ?). lia. }
  rewrite (bool_decide_eq_false_2 _ Hq).
  destruct (_questVotingFailed q); simpl; split; split; try done;
    intros _; exists cur; repeat split; (done || lia).
Qed.


Lemma teamVoting_closed_succeeded q :
  teamVotingAllowed q = Ok false <-> teamVotingSucceeded q = Ok true.
Proof.
  destruct (_getCurrentTeamVotingRound q) as [cur|] eqn:Hc.
  2:{ rewrite (no_round_teamVotingAllowed q Hc),
        (no_round_teamVotingSucceeded q Hc). done. }
  rewrite (teamVotingAllowed_eq q cur Hc), (teamVotingSucceeded_eq q cur Hc).
  destruct (decide (len cur < _totalPlayers q)) as [Hlt|Hge].
  - rewrite (bool_decide_eq_true_2 _ Hlt).
    rewrite bool_decide_eq_false_2 by lia. done.
  - rewrite (bool_decide_eq_false_2 _ Hge).
    rewrite bool_decide_eq_true_2 by lia. by destruct (majority cur).
Qed.

Lemma set_questVotes_teamVotingAllowed votes q :
  teamVotingAllowed (set_questVotes votes q) = teamVotingAllowed q.
Proof.
  destruct (_getCurrentTeamVotingRound q) as [cur|] eqn:Hc.
  - assert (_getCurrentTeamVotingRound (set_questVotes votes q) = Some cur)
      as Hc' by exact Hc.
    by rewrite (teamVotingAllowed_eq _ cur Hc'), (teamVotingAllowed_eq q cur Hc).
  - assert (_getCurrentTeamVotingRound (set_questVotes votes q) = None)
      as Hc' by exact Hc.
    by rewrite (no_round_teamVotingAllowed _ Hc'), (no_round_teamVotingAllowed q Hc).
Qed.

Lemma addVote_quest_after_team vote q :
  _questVotes q = [] \/ teamVotingAllowed q = Ok false ->
  _questVotes (snd (addVote vote q)) = []
  \/ teamVotingAllowed (snd (addVote vote q)) = Ok false.
Proof.
  intros HJ.
  destruct (addVote_step vote q)
    as [->|[(cur & i' & _ & Hteam & _ & _ & ->)|(cur & _ & Hteam & _ & ->)]];
    [done| |].
  - left. simpl. destruct HJ as [?|?]; [done|congruence].
  - right. by rewrite set_questVotes_teamVotingAllowed.
Qed.

(** X7: quest votes come after the team vote: in a quest driven by
    [addVote], as soon as one quest vote is recorded team voting is closed
    and has succeeded. *)
Theorem quest_votes_after_approval config votes :
  let q := run_votes votes (new_Quest config) in
  _questVotes q <> [] ->
  teamVotingAllowed q = Ok false /\ teamVotingSucceeded q = Ok true.
Proof.
  intros q Hne.
  assert (_questVotes q = [] \/ teamVotingAllowed q = Ok false) as [?|Hclosed].
  { apply (run_votes_preserves
             (fun q => _questVotes q = [] \/ teamVotingAllowed q = Ok false)).
    - intros q0 vote. apply addVote_quest_after_team.
    - by left. }
  - done.
  - split; [done|]. by apply teamVoting_closed_succeeded.
Qed.

(** X7 at work: two players approve, the first votes on the quest. *)
Lemma quest_votes_after_approval_witness :
  let q := run_votes [approve "a"; approve "b"; reject "a"]
             (new_Quest (mkConfig 2 1 2)) in
  _questVotes q <> []
  /\ teamVotingAllowed q = Ok false /\ teamVotingSucceeded q = Ok true.
Proof.
  split; [discriminate|].
  apply (quest_votes_after_approval (mkConfig 2 1 2)
           [approve "a"; approve "b"; reject "a"]).
  discriminate.
Defined.

Lemma addVote_after_approval vote q :
  teamVotingSucceeded q = Ok true ->
  _teamVoteRounds (snd (addVote vote q)) = _teamVoteRounds q
  /\ _teamVotingRoundIndex (snd (addVote vote q)) = _teamVotingRoundIndex q
  /\ teamVotingSucceeded (snd (addVote vote q)) = Ok true.
Proof.
  intros Hs. pose proof (proj2 (teamVoting_closed_succeeded q) Hs) as Hclosed.
  destruct (addVote_step vote q)
    as [->|[(cur & i' & _ & Hteam & _ & _ & ->)|(cur & _ & _ & _ & ->)]];
    [done|congruence|].
  repeat split. apply teamVoting_closed_succeeded.
  by rewrite set_questVotes_teamVotingAllowed.
Qed.

(** X8: an approved team is final: once [teamVotingSucceeded] is true, no
    sequence of [addVote] calls changes a round or the round index, and
    [teamVotingSucceeded] stays true. *)
Theorem team_approval_final q votes :
  teamVotingSucceeded q = Ok true ->
  _teamVoteRounds (run_votes votes q) = _teamVoteRounds q
  /\ getTeamVotingRoundIndex (run_votes votes q) = getTeamVotingRoundIndex q
  /\ teamVotingSucceeded (run_votes votes q) = Ok true.
Proof.
  unfold getTeamVotingRoundIndex. revert q.
  induction votes as [|vote votes IH]; intros q Hs; [done|].
  simpl. destruct (addVote_after_approval vote q Hs) as (Hr & Hi & Hs').
  destruct (IH _ Hs') as (Hr' & Hi' & Hs''). repeat split; congruence.
Qed.

(** X8 at work: votes of new and old players after the team is approved. *)
Lemma team_approval_final_witness :
  let q := run_votes [approve "a"; approve "b"] (new_Quest (mkConfig 1 1 2)) in
  let votes := [reject "c"; reject "a"; approve "a"; reject "d"] in
  teamVotingSucceeded q = Ok true
  /\ _teamVoteRounds (run_votes votes q) = _teamVoteRounds q
  /\ getTeamVotingRoundIndex (run_votes votes q) = getTeamVotingRoundIndex q
  /\ teamVotingSucceeded (run_votes votes q) = Ok true.
Proof.
  split; [reflexivity|].
  apply (team_approval_final
           (run_votes [approve "a"; approve "b"] (new_Quest (mkConfig 1 1 2)))
           [reject "c"; reject "a"; approve "a"; reject "d"]).
  reflexivity.
Defined.

(** X9: on a quest created for at least one player and driven by
    [addVote], team voting is allowed exactly while the current round
    holds fewer than [totalPlayers] votes: a full round that was not
    approved is never the current one. *)
Theorem teamVotingAllowed_while_round_open config votes cur :
  1 <= totalPlayers config ->
  let q := run_votes votes (new_Quest config) in
  _getCurrentTeamVotingRound q = Some cur ->
  len cur <= totalPlayers config
  /\ teamVotingAllowed q = Ok (bool_decide (len cur < totalPlayers config)).
Proof.
  intros Hn q Hc.
  assert (rounds_wf q) as (_ & _ & Hcur & _)
    by (apply run_votes_rounds_wf, new_Quest_rounds_wf, Hn).
  destruct (run_votes_same_config votes (new_Quest config)) as (_ & _ & Ht).
  fold q in Ht. simpl in Ht. destruct (Hcur cur Hc) as [Hle Hfull].
  rewrite Ht in *. split; [done|].
  rewrite (teamVotingAllowed_eq q cur Hc), Ht.
  destruct (decide (len cur < totalPlayers config)) as [Hlt|Hge].
  - by rewrite (bool_decide_eq_true_2 _ Hlt).
  - rewrite (bool_decide_eq_false_2 _ Hge). rewrite Hfull by lia. done.
Qed.

(** X9 at work: two of three players have voted. *)
Lemma teamVotingAllowed_while_round_open_witness :
  let config := mkConfig 2 1 3 in
  let votes := [reject "a"; reject "b"] in
  1 <= totalPlayers config
  /\ _getCurrentTeamVotingRound (run_votes votes (new_Quest config))
     = Some votes
  /\ teamVotingAllowed (run_votes votes (new_Quest config)) = Ok true.
Proof.
  split; [simpl; lia|]. split; [reflexivity|].
  exact (proj2 (teamVotingAllowed_while_round_open (mkConfig 2 1 3)
                  [reject "a"; reject "b"] [reject "a"; reject "b"]
                  ltac:(simpl; lia) eq_refl)).
Defined.


End QuestHistory.

(** ** More about the quest: whole rounds *)

Section QuestRounds.

Implicit Types (q : Quest) (vote : Vote) (votes cur : list Vote).

Lemma not_alreadyVotedFor votes vote :
  getUsername vote ∉ usernames votes -> _alreadyVotedFor votes vote = false.
Proof.
  intros Hn. destruct (_alreadyVotedFor votes vote) eqn:Hv; [|done].
  apply _alreadyVotedFor_true in Hv as (v & Hin & Heq). exfalso. apply Hn.
  rewrite <- Heq. apply list_elem_of_In, in_map. by apply list_elem_of_In.
Qed.

Lemma usernames_snoc_fresh cur vote votes :
  NoDup (usernames (cur ++ vote :: votes)) ->
  getUsername vote ∉ usernames cur.
Proof.
  unfold usernames. rewrite map_app. simpl. intros Hnd Hin.
  apply NoDup_app in Hnd as (_ & Hdisj & _).
  apply (Hdisj _ Hin). apply list_elem_of_here.
Qed.

Lemma set_teamVoteRounds_id q : set_teamVoteRounds (_teamVoteRounds q) q = q.
Proof. by destruct q. Qed.

(** Votes of distinct players that do not fill the current round are all
    recorded in it, in order. *)
Lemma run_team_votes votes :
  forall q cur,
    _getCurrentTeamVotingRound q = Some cur ->
    NoDup (usernames (cur ++ votes)) ->
    len cur + len votes < _totalPlayers q ->
    run_votes votes q
    = set_teamVoteRounds
        (<[Z.to_nat (_teamVotingRoundIndex q) := cur ++ votes]>
           (_teamVoteRounds q)) q.
Proof.
  induction votes as [|vote votes IH]; intros q cur Hc Hnd Hlen.
  { simpl. rewrite app_nil_r. apply array_get_Some in Hc as [_ Hc].
    rewrite (list_insert_id _ _ _ Hc). by rewrite set_teamVoteRounds_id. }
  assert (len (vote :: votes) = 1 + len votes) as Hcons
    by (unfold len; simpl length; lia).
  pose proof (len_nonneg votes) as Hnn.
  simpl. rewrite addVote_eq. unfold addVote_result. rewrite Hc.
  rewrite bool_decide_eq_true_2 by lia. simpl.
  rewrite (not_alreadyVotedFor cur vote)
    by (by apply usernames_snoc_fresh with votes).
  rewrite bool_decide_eq_false_2
    by (rewrite len_app; unfold len at 2; simpl; lia).
  simpl.
  pose proof (push_currentRound_current q cur vote Hc) as Hc1.
  destruct (push_currentRound_fields q vote) as (Ht & _ & _ & Hi & _).
  rewrite (IH _ (cur ++ [vote]) Hc1).
  - unfold push_currentRound. rewrite Hc. simpl.
    rewrite list_insert_insert_eq. by rewrite <- app_assoc.
  - by rewrite <- app_assoc.
  - rewrite Ht, len_app. unfold len at 2. simpl. lia.
Qed.

(** A first round of [totalPlayers] votes of distinct players. *)
Lemma run_full_team_round config votes :
  1 <= totalPlayers config ->
  len votes = totalPlayers config ->
  NoDup (usernames votes) ->
  run_votes votes (new_Quest config)
  = mkQuest (votesNeeded config) (failsNeeded config) (totalPlayers config)
      [votes; []; []; []; []]
      (if bool_decide (rejections votes < approvals votes) then 0 else 1)
      [].
Proof.
  intros Hn Hlen Hnd.
  destruct (exists_last (l := votes)) as (front & vote & ->).
  { intros ->. unfold len in Hlen. simpl in Hlen. lia. }
  rewrite len_app in Hlen. unfold len at 2 in Hlen. simpl in Hlen.
  assert (NoDup (usernames front)) as Hfront.
  { unfold usernames in *. rewrite map_app in Hnd.
    by apply NoDup_app in Hnd as (? & _). }
  rewrite run_votes_app.
  rewrite (run_team_votes front (new_Quest config) []);
    [|reflexivity|exact Hfront|simpl; unfold len at 1; simpl; lia].
  simpl. rewrite addVote_eq. unfold addVote_result.
  unfold _getCurrentTeamVotingRound. simpl.
  rewrite bool_decide_eq_true_2 by lia. simpl.
  rewrite (not_alreadyVotedFor front vote).
  2:{ apply (usernames_snoc_fresh front vote []). exact Hnd. }
  rewrite bool_decide_eq_true_2
    by (rewrite len_app; unfold len at 2; simpl; lia).
  simpl. unfold push_currentRound, _getCurrentTeamVotingRound. simpl.
  destruct (majority (front ++ [vote])) eqn:Hm; simpl.
  - apply majority_true in Hm. by rewrite (bool_decide_eq_true_2 _ Hm).
  - assert (~ rejections (front ++ [vote]) < approvals (front ++ [vote])) as Hn'.
    { intros Hlt. apply majority_true in Hlt. congruence. }
    by rewrite (bool_decide_eq_false_2 _ Hn').
Qed.

(** X10: when [totalPlayers] (at least one) distinct players vote on a new
    quest, the round is decided: [teamVotingRoundFinished] is true and
    team voting has succeeded exactly when the approvals outnumber the
    rejections; if so the round index is still 0 and the round stays
    current, otherwise the index is 1 and the next round is empty and open
    for voting. *)
Theorem full_round_decided config votes :
  1 <= totalPlayers config ->
  len votes = totalPlayers config ->
  NoDup (usernames votes) ->
  let q := run_votes votes (new_Quest config) in
  let approved := bool_decide (rejections votes < approvals votes) in
  teamVotingRoundFinished q = Ok true
  /\ teamVotingSucceeded q = Ok approved
  /\ teamVotingAllowed q = Ok (negb approved)
  /\ getTeamVotingRoundIndex q = (if approved then 0 else 1)
  /\ _getCurrentTeamVotingRound q = Some (if approved then votes else []).
Proof.
  intros Hn Hlen Hnd q approved. unfold q.
  rewrite (run_full_team_round config votes Hn Hlen Hnd). fold approved.
  assert (majority votes = approved) as Hm.
  { unfold approved. destruct (majority votes) eqn:Hm.
    - apply majority_true in Hm. by rewrite bool_decide_eq_true_2.
    - rewrite bool_decide_eq_false_2; [done|]. intros Hlt.
      apply majority_true in Hlt. congruence. }
  destruct approved.
  - set (q1 := mkQuest _ _ _ _ 0 _).
    assert (_getCurrentTeamVotingRound q1 = Some votes) as Hc by reflexivity.
    unfold teamVotingRoundFinished.
    rewrite (teamVotingSucceeded_eq q1 votes Hc),
      (teamVotingAllowed_eq q1 votes Hc). simpl.
    rewrite Hm. rewrite bool_decide_eq_true_2 by lia.
    rewrite bool_decide_eq_false_2 by lia. done.
  - set (q1 := mkQuest _ _ _ _ 1 _).
    assert (_getCurrentTeamVotingRound q1 = Some []) as Hc by reflexivity.
    unfold teamVotingRoundFinished.
    rewrite (teamVotingSucceeded_eq q1 [] Hc),
      (teamVotingAllowed_eq q1 [] Hc). simpl.
    rewrite bool_decide_eq_false_2 by (unfold len; simpl; lia).
    rewrite bool_decide_eq_true_2 by (unfold len; simpl; lia).
    simpl. unfold _getPreviousTeamVotingRound, _everybodyVotedFor. simpl.
    rewrite bool_decide_eq_true_2 by done. done.
Qed.

(** X10 at work: three players, two of them reject. *)
Lemma full_round_decided_witness :
  let config := mkConfig 2 1 3 in
  let votes := [reject "a"; approve "b"; reject "c"] in
  1 <= totalPlayers config
  /\ len votes = totalPlayers config
  /\ NoDup (usernames votes)
  /\ teamVotingRoundFinished (run_votes votes (new_Quest config)) = Ok true
  /\ getTeamVotingRoundIndex (run_votes votes (new_Quest config)) = 1.
Proof.
  assert (NoDup (usernames [reject "a"; approve "b"; reject "c"])) as Hnd.
  { apply (bool_decide_unpack _). vm_compute. exact I. }
  split; [simpl; lia|]. split; [reflexivity|]. split; [exact Hnd|].
  destruct (full_round_decided (mkConfig 2 1 3)
              [reject "a"; approve "b"; reject "c"]
              ltac:(simpl; lia) eq_refl Hnd) as (H1 & _ & _ & H4 & _).
  split; [exact H1|exact H4].
Defined.


(** Once team voting is closed, votes of distinct players who have not
    voted on the quest are all recorded among the quest votes, in order. *)
Lemma run_quest_votes votes :
  forall q,
    teamVotingAllowed q = Ok false ->
    NoDup (usernames (_questVotes q ++ votes)) ->
    run_votes votes q = set_questVotes (_questVotes q ++ votes) q.
Proof.
  induction votes as [|vote votes IH]; intros q Hclosed Hnd.
  { simpl. rewrite app_nil_r. by destruct q. }
  simpl.
  destruct (addVote_step vote q)
    as [Hsame|[(cur & i' & _ & Hteam & _ & _ & _)|(cur & _ & _ & _ & Hq)]].
  - exfalso. revert Hsame. rewrite addVote_eq. unfold addVote_result.
    destruct (_getCurrentTeamVotingRound q) as [cur|] eqn:Hc.
    2:{ by rewrite (no_round_teamVotingAllowed q Hc) in Hclosed. }
    rewrite (teamVotingAllowed_eq q cur Hc) in Hclosed.
    injection Hclosed as ->.
    rewrite (not_alreadyVotedFor (_questVotes q) vote)
      by (by apply usernames_snoc_fresh with votes).
    simpl. intros Heq. apply (f_equal _questVotes) in Heq. simpl in Heq.
    apply (f_equal length) in Heq. rewrite length_app in Heq. simpl in Heq.
    lia.
  - congruence.
  - rewrite Hq. rewrite IH.
    + simpl. by rewrite <- app_assoc.
    + by rewrite set_questVotes_teamVotingAllowed.
    + simpl. by rewrite <- app_assoc.
Qed.

(** X11: a whole quest: [totalPlayers] (at least one) distinct players
    vote on the team with a strict majority of approvals, then distinct
    players vote on the quest. [getStatus] is -1 as long as fewer than
    [votesNeeded] quest votes are in; from then on it is 0 if at least
    [failsNeeded] of them reject, and 1 otherwise. *)
Theorem quest_outcome config teamVotes questVotes :
  1 <= totalPlayers config ->
  len teamVotes = totalPlayers config ->
  NoDup (usernames teamVotes) ->
  rejections teamVotes < approvals teamVotes ->
  NoDup (usernames questVotes) ->
  getStatus (run_votes (teamVotes ++ questVotes) (new_Quest config))
  = Ok (if bool_decide (len questVotes < votesNeeded config) then -1
        else if bool_decide (failsNeeded config <= rejections questVotes)
             then 0 else 1).
Proof.
  intros Hn Hlen Hnd Hmaj Hndq. rewrite run_votes_app.
  rewrite (run_full_team_round config teamVotes Hn Hlen Hnd).
  rewrite (bool_decide_eq_true_2 _ Hmaj).
  set (q1 := mkQuest _ _ _ _ 0 _).
  assert (_getCurrentTeamVotingRound q1 = Some teamVotes) as Hc by reflexivity.
  assert (majority teamVotes = true) as Hm by (by apply majority_true).
  assert (teamVotingAllowed q1 = Ok false) as Hclosed.
  { rewrite (teamVotingAllowed_eq q1 teamVotes Hc). simpl. rewrite Hm.
    by rewrite bool_decide_eq_false_2 by lia. }
  rewrite (run_quest_votes questVotes q1 Hclosed Hndq). simpl.
  set (q2 := set_questVotes questVotes q1).
  assert (_getCurrentTeamVotingRound q2 = Some teamVotes) as Hc2 by reflexivity.
  rewrite (getStatus_eq q2 teamVotes Hc2), _questVotingFailed_eq. simpl.
  rewrite Hm. rewrite (bool_decide_eq_false_2 (len teamVotes < _)) by lia.
  simpl.
  destruct (bool_decide (len questVotes < votesNeeded config)); [done|].
  by destruct (bool_decide (failsNeeded config <= rejections questVotes)).
Qed.

(** X11 at work: five players, a team of two, one of them fails the
    quest. *)
Lemma quest_outcome_witness :
  let config := mkConfig 2 1 5 in
  let teamVotes := [approve "a"; approve "b"; reject "c"; approve "d";
                    reject "e"] in
  let questVotes := [approve "a"; reject "b"] in
  1 <= totalPlayers config
  /\ len teamVotes = totalPlayers config
  /\ NoDup (usernames teamVotes)
  /\ rejections teamVotes < approvals teamVotes
  /\ NoDup (usernames questVotes)
  /\ getStatus (run_votes (teamVotes ++ questVotes) (new_Quest config)) = Ok 0.
Proof.
  assert (NoDup (usernames [approve "a"; approve "b"; reject "c";
                            approve "d"; reject "e"])) as Hnd.
  { apply (bool_decide_unpack _). vm_compute. exact I. }
  assert (NoDup (usernames [approve "a"; reject "b"])) as Hndq.
  { apply (bool_decide_unpack _). vm_compute. exact I. }
  split; [simpl; lia|]. split; [reflexivity|]. split; [exact Hnd|].
  split; [reflexivity|]. split; [exact Hndq|].
  exact (quest_outcome (mkConfig 2 1 5)
           [approve "a"; approve "b"; reject "c"; approve "d"; reject "e"]
           [approve "a"; reject "b"]
           ltac:(simpl; lia) eq_refl Hnd eq_refl Hndq).
Defined.

Lemma addVote_in_progress_quest_after_team vote q :
  _questVotes q = [] \/ teamVotingAllowed q = Ok false ->
  _questVotes (addVote_in_progress vote q) = []
  \/ teamVotingAllowed (addVote_in_progress vote q) = Ok false.
Proof.
  intros HJ. unfold addVote_in_progress.
  destruct (getStatus q) as [[|p|[p|p|]]|e]; try done.
  by apply addVote_quest_after_team.
Qed.

Lemma run_votes_in_progress_invariant (n : Z) votes :
  forall q0,
    (_questVotes q0 = [] \/ teamVotingAllowed q0 = Ok false)
    /\ len (_questVotes q0) <= _votesNeeded q0
    /\ _votesNeeded q0 = n ->
    (_questVotes (run_votes_in_progress votes q0) = []
     \/ teamVotingAllowed (run_votes_in_progress votes q0) = Ok false)
    /\ len (_questVotes (run_votes_in_progress votes q0))
       <= _votesNeeded (run_votes_in_progress votes q0)
    /\ _votesNeeded (run_votes_in_progress votes q0) = n.
Proof.
  induction votes as [|vote votes IH]; intros q0 (H1 & H2 & H3); [done|].
  simpl. apply IH. split; [by apply addVote_in_progress_quest_after_team|].
  split; [by apply addVote_in_progress_bound|].
  unfold addVote_in_progress.
  destruct (getStatus q0) as [[|p|[p|p|]]|e]; try done.
  destruct (addVote_same_config vote q0) as (Hv & _). congruence.
Qed.

(** X12: for a caller that votes only while the quest is in progress, on
    a quest that needs at least one quest vote, [questVotingFinished] says
    the same as [isComplete]: the quest votes number exactly [votesNeeded]
    if and only if the quest is over. *)
Theorem questVotingFinished_iff_complete config votes :
  1 <= votesNeeded config ->
  let q := run_votes_in_progress votes (new_Quest config) in
  questVotingFinished q = true <-> isComplete q = Ok true.
Proof.
  intros Hn q.
  assert ((_questVotes q = [] \/ teamVotingAllowed q = Ok false)
          /\ len (_questVotes q) <= _votesNeeded q
          /\ _votesNeeded q = votesNeeded config) as (HJ & Hbound & Hvn).
  { apply run_votes_in_progress_invariant.
    split; [by left|]. split; [unfold len; simpl; lia|done]. }
  unfold questVotingFinished, isComplete. rewrite bool_decide_eq_true.
  destruct (_getCurrentTeamVotingRound q) as [cur|] eqn:Hc.
  2:{ rewrite (no_round_getStatus q Hc). simpl. split; [|done]. intros Hfull.
      destruct HJ as [Hnil|Hclosed].
      - rewrite Hnil in Hfull. unfold len in Hfull. simpl in Hfull. lia.
      - by rewrite (no_round_teamVotingAllowed q Hc) in Hclosed. }
  rewrite (getStatus_eq q cur Hc). simpl.
  destruct (bool_decide (len cur < _totalPlayers q) || negb (majority cur))
    eqn:Hteam; simpl.
  { split; [|done]. intros Hfull. destruct HJ as [Hnil|Hclosed].
    - rewrite Hnil in Hfull. unfold len in Hfull. simpl in Hfull. lia.
    - rewrite (teamVotingAllowed_eq q cur Hc), Hteam in Hclosed. done. }
  destruct (decide (len (_questVotes q) < _votesNeeded q)) as [Hlt|Hge].
  - rewrite (bool_decide_eq_true_2 _ Hlt). simpl. split; [lia|done].
  - rewrite (bool_decide_eq_false_2 _ Hge).
    split; [|lia]. intros _. by destruct (_questVotingFailed q).
Qed.


(** X12 at work: the third vote is held back, the quest is over. *)
Lemma questVotingFinished_iff_complete_witness :
  let config := mkConfig 1 1 1 in
  let votes := [approve "a"; reject "a"; approve "b"] in
  1 <= votesNeeded config
  /\ (questVotingFinished (run_votes_in_progress votes (new_Quest config)) = true
      <-> isComplete (run_votes_in_progress votes (new_Quest config)) = Ok true).
Proof.
  split; [simpl; lia|].
  apply (questVotingFinished_iff_complete (mkConfig 1 1 1)
           [approve "a"; reject "a"; approve "b"]).
  simpl. lia.
Defined.

Lemma map_Vote_serialize_inj votes1 votes2 :
  map Vote_serialize votes1 = map Vote_serialize votes2 -> votes1 = votes2.
Proof.
  revert votes2. induction votes1 as [|v1 votes1 IH]; intros [|v2 votes2] H;
    try done.
  rewrite !map_cons in H. injection H as Hu Hv Hrest.
  f_equal; [|by apply IH]. destruct v1, v2. simpl in *. congruence.
Qed.

(** X13: [serialize] loses nothing of what it shows: two quests with the
    same serialized form have the same [failsNeeded] and [votesNeeded],
    the same current round and the same quest votes, vote by vote. *)
Theorem serialize_injective q1 q2 (o : JsVal) :
  serialize q1 = Ok o ->
  serialize q2 = Ok o ->
  getFailsNeeded q1 = getFailsNeeded q2
  /\ getVotesNeeded q1 = getVotesNeeded q2
  /\ _getCurrentTeamVotingRound q1 = _getCurrentTeamVotingRound q2
  /\ _questVotes q1 = _questVotes q2.
Proof.
  unfold serialize, getFailsNeeded, getVotesNeeded.
  destruct (_getCurrentTeamVotingRound q1) as [cur1|]; [|done].
  destruct (_getCurrentTeamVotingRound q2) as [cur2|]; [|done].
  simpl. intros [= <-] [= Hf Hv Ht Hq].
  apply map_Vote_serialize_inj in Ht, Hq. repeat split; congruence.
Qed.

(** X13 at work: two quests that differ in their rejected rounds only. *)
Lemma serialize_injective_witness :
  let q1 := run_votes [reject "a"; reject "a"; approve "a"] quest_1_1_1 in
  let q2 := run_votes [reject "a"; approve "a"] quest_1_1_1 in
  serialize q2 = serialize q1
  /\ _getCurrentTeamVotingRound q1 = _getCurrentTeamVotingRound q2
  /\ _questVotes q1 = _questVotes q2.
Proof.
  split; [reflexivity|].
  destruct (serialize_injective
              (run_votes [reject "a"; reject "a"; approve "a"] quest_1_1_1)
              (run_votes [reject "a"; approve "a"] quest_1_1_1)
              _ eq_refl eq_refl) as (_ & _ & Hc & Hq).
  split; [exact Hc|exact Hq].
Defined.

End QuestRounds.

(** ** More about the state machine: what a transition does *)

Section MachineEffects.

Implicit Types (m : GameStateMachine) (f : FiniteStateMachine)
  (s from to : GameState) (g : Game) (w : GameStateTransitionWaitTimes).

Lemma init_table_permitted from to :
  (from, to) ∈ init_table <-> permitted from to = true.
Proof.
  pose proof (canGo_permitted (mkFsm from init_table []) to eq_refl) as H.
  unfold canGo in H. simpl in H. rewrite <- H. by rewrite bool_decide_eq_true.
Qed.

(** X14: the listeners and the transition table agree: a listener does
    something (a call on the game at once, or a timer) exactly for the
    pairs of states that [initTransitions] permits. *)
Theorem listeners_match_table w from to :
  (from, to) ∈ init_table <-> listener_body w to from <> no_run.
Proof.
  rewrite init_table_permitted.
  destruct from, to; simpl; split; intros H; done.
Qed.

(** X15: when a listener sets a timer, the wait is the one configured for
    the state the machine leaves: [afterTeamProposition] out of
    TeamProposition, [afterTeamVoting] out of TeamVoting and
    TeamVotingPreApproved, [afterQuestVoting] out of QuestVoting. *)
Theorem wait_follows_state_left w to from (t : Timer) :
  run_waitFor (listener_body w to from) = Some t ->
  wait_after w from = Some (timer_ms t).
Proof. destruct to, from; simpl; intros [= <-]; reflexivity. Qed.

(** X15 at work: the team is rejected. *)
Lemma wait_follows_state_left_witness :
  let t := mkTimer [playersManager_reset; setState TeamPropositionState] 3000 in
  run_waitFor (listener_body (mkWaitTimes 1000 3000 7000)
                 TeamProposition TeamVoting) = Some t
  /\ wait_after (mkWaitTimes 1000 3000 7000) TeamVoting = Some 3000.
Proof.
  split; [reflexivity|].
  exact (wait_follows_state_left (mkWaitTimes 1000 3000 7000)
           TeamProposition TeamVoting
           (mkTimer [playersManager_reset; setState TeamPropositionState] 3000)
           eq_refl).
Defined.

(** X16: every permitted transition leaves the game, once its timer (if
    any) has run, in the state object of the state entered (the old state
    object after Preparation is replaced at once; Finish freezes the
    game); and a transition that sets a timer either freezes the game at
    once or makes no call until the timer runs. *)
Theorem transition_installs_target w from to :
  (from, to) ∈ init_table ->
  let r := listener_body w to from in
  last_setState (all_calls r) = stateObject_of to
  /\ stateObject_of to <> None
  /\ (run_waitFor r <> None ->
      run_now r = [] \/ run_now r = [setState FrozenState]).
Proof.
  rewrite init_table_permitted.
  destruct from, to; simpl; intros H; try done;
    (split; [reflexivity|]); (split; [done|]); intros _; auto.
Qed.

(** X16 at work: the forced fifth round. *)
Lemma transition_installs_target_witness :
  (TeamProposition, TeamVotingPreApproved) ∈ init_table
  /\ last_setState
       (all_calls (listener_body default_waitTimes TeamVotingPreApproved
                     TeamProposition))
     = Some TeamVotingState.
Proof.
  assert ((TeamProposition, TeamVotingPreApproved) ∈ init_table) as Hin.
  { apply (bool_decide_unpack _). vm_compute. exact I. }
  split; [exact Hin|].
  exact (proj1 (transition_installs_target default_waitTimes TeamProposition
                  TeamVotingPreApproved Hin)).
Defined.


Lemma init_ready g w : machine_ready g w (init g (new_GameStateMachine w)).
Proof. eexists. repeat split. Qed.

Lemma listeners_on g to :
  to <> Preparation ->
  filter (fun l => listener_on l = to) (listeners_of g) = [mkListener to g].
Proof. destruct to; intros H; try done; reflexivity. Qed.

(** What [transitionTo] does on a machine that is ready: nothing but the
    error when the transition is not permitted; otherwise the one listener
    of the target runs. *)
Lemma transitionTo_ready g w m to :
  machine_ready g w m ->
  exists f,
    fsm m = Some f
    /\ if permitted (currentState f) to
       then let r := listener_body w to (currentState f) in
            transitionTo to m
            = (Ok (mkTransition
                     (match run_waitFor r with
                      | Some t => Promise_timer t
                      | None => Promise_resolve
                      end)
                     (map (fun c => (g, c)) (run_now r))),
               mkMachine (isInit m)
                 (Some (mkFsm to init_table (listeners_of g)))
                 (game m) None w)
       else transitionTo to m = (Throw IllegalTransition, m).
Proof.
  intros (f & Hf & Ht & Hl & Hp & Hw). exists f. split; [done|].
  unfold transitionTo, go. rewrite Hf, (canGo_permitted f to Ht), Hl, Hp, Hw, Ht.
  destruct (permitted (currentState f) to) eqn:Hperm; [|done].
  rewrite listeners_on by (intros ->; by destruct (currentState f)).
  simpl. rewrite app_nil_r. by destruct (run_waitFor _).
Qed.

Lemma transitionTo_keeps_ready g w m to :
  machine_ready g w m -> machine_ready g w (snd (transitionTo to m)).
Proof.
  intros Hr. destruct (transitionTo_ready g w m to Hr) as (f & Hf & Hto).
  destruct (permitted (currentState f) to).
  - simpl in Hto. rewrite Hto. simpl. eexists. repeat split.
  - by rewrite Hto.
Qed.

Lemma run_transitions_ready g w path m :
  machine_ready g w m -> machine_ready g w (run_transitions path m).
Proof.
  revert m. induction path as [|s path IH]; intros m Hr; [done|].
  simpl. by apply IH, transitionTo_keeps_ready.
Qed.

(** X17: on an initialised machine, however it got to its current state,
    a successful [transitionTo] returns the promise of the timer its
    listener set, or a resolved promise when the listener set none; the
    calls made at once go to the game given to [init]; and no pending
    promise is kept for the next transition. *)
Theorem transitionTo_outcome g w (path : list GameState) to (t : Transition) :
  let m := run_transitions path (init g (new_GameStateMachine w)) in
  fst (transitionTo to m) = Ok t ->
  exists f,
    fsm m = Some f
    /\ permitted (currentState f) to = true
    /\ returned t
       = match run_waitFor (listener_body w to (currentState f)) with
         | Some timer => Promise_timer timer
         | None => Promise_resolve
         end
    /\ gameCalls t
       = map (fun c => (g, c)) (run_now (listener_body w to (currentState f)))
    /\ stateUpdatePromise (snd (transitionTo to m)) = None.
Proof.
  intros m Hok.
  assert (machine_ready g w m) as Hr
    by apply run_transitions_ready, init_ready.
  destruct (transitionTo_ready g w m to Hr) as (f & Hf & Hto).
  exists f. split; [done|].
  destruct (permitted (currentState f) to).
  - simpl in Hto. rewrite Hto in Hok |- *. simpl in *.
    injection Hok as <-. done.
  - by rewrite Hto in Hok.
Qed.

(** X17 at work: the team is submitted. *)
Lemma transitionTo_outcome_witness :
  let m := run_transitions [TeamProposition]
             (init (GameRef 0) (new_GameStateMachine default_waitTimes)) in
  exists t,
    fst (transitionTo TeamVoting m) = Ok t
    /\ returned t
       = Promise_timer
           (mkTimer [playersManager_setIsSubmitted true;
                     setState TeamVotingState] 5000)
    /\ gameCalls t = [].
Proof.
  eexists. split; [reflexivity|].
  destruct (transitionTo_outcome (GameRef 0) default_waitTimes
              [TeamProposition] TeamVoting _ eq_refl)
    as (f & Hf & _ & Hret & Hcalls & _).
  injection Hf as <-. split; [exact Hret|exact Hcalls].
Defined.

Lemma run_transitions_left_Preparation g w m0 path :
  forall m1,
    machine_ready g w m1 ->
    m1 = m0 \/ (exists f, fsm m1 = Some f /\ currentState f <> Preparation) ->
    run_transitions path m1 = m0
    \/ (exists f, fsm (run_transitions path m1) = Some f
                  /\ currentState f <> Preparation).
Proof.
  induction path as [|s path IH]; intros m1 Hr Hp; [done|].
  simpl. apply IH; [by apply transitionTo_keeps_ready|].
  destruct (transitionTo_ready g w m1 s Hr) as (f & Hf & Hto).
  destruct (permitted (currentState f) s) eqn:Hperm.
  - right. simpl in Hto. rewrite Hto. simpl. eexists. split; [done|].
    simpl. intros ->. by destruct (currentState f).
  - by rewrite Hto.
Qed.

(** X18: the two ends of the machine: it is in Preparation only as long
    as no transition has succeeded (it is then exactly as [init] left it),
    and once it is in Finish every further [transitionTo], to any state,
    Finish included, fails with the illegal-transition error and leaves
    the machine as it is, so that nothing changes any more. *)
Theorem machine_ends g w (path : list GameState) :
  let m0 := init g (new_GameStateMachine w) in
  let m := run_transitions path m0 in
  exists f,
    fsm m = Some f
    /\ (currentState f = Preparation -> m = m0)
    /\ (currentState f = Finish ->
        (forall to, transitionTo to m = (Throw IllegalTransition, m))
        /\ (forall more, run_transitions more m = m)).
Proof.
  intros m0 m.
  assert (machine_ready g w m) as Hr
    by apply run_transitions_ready, init_ready.
  assert (m = m0 \/ exists f, fsm m = Some f /\ currentState f <> Preparation)
    as Hprep.
  { apply (run_transitions_left_Preparation g w); [apply init_ready|by left]. }
  destruct Hr as (f & Hf & Ht & Hl & Hp & Hw). exists f. split; [done|].
  split.
  - intros Hcur. destruct Hprep as [?|(f' & Hf' & Hne)]; [done|]. congruence.
  - intros Hfin.
    assert (forall to, transitionTo to m = (Throw IllegalTransition, m))
      as Hfail.
    { intros to. destruct (transitionTo_ready g w m to) as (f' & Hf' & Hto).
      { by exists f. }
      assert (f' = f) as -> by congruence. rewrite Hfin in Hto.
      exact Hto. }
    split; [exact Hfail|].
    intros more. induction more as [|s more IH]; [done|].
    simpl. by rewrite Hfail.
Qed.

(** X18 at work: a game played to its end; asking for Finish again, or
    for any other state, is refused. *)
Lemma machine_ends_witness :
  let m := run_transitions [TeamProposition; TeamVoting; QuestVoting; Finish]
             (init (GameRef 0) (new_GameStateMachine default_waitTimes)) in
  (currentState <$> fsm m) = Some Finish
  /\ transitionTo Finish m = (Throw IllegalTransition, m)
  /\ transitionTo Preparation m = (Throw IllegalTransition, m)
  /\ run_transitions [TeamProposition; Assassination; Preparation] m = m.
Proof.
  split; [reflexivity|].
  destruct (machine_ends (GameRef 0) default_waitTimes
              [TeamProposition; TeamVoting; QuestVoting; Finish])
    as (f & Hf & _ & Hfin).
  injection Hf as <-.
  destruct (Hfin eq_refl) as [Hfail Hstay].
  split; [exact (Hfail Finish)|]. split; [exact (Hfail Preparation)|].
  exact (Hstay [TeamProposition; Assassination; Preparation]).
Defined.

End MachineEffects.

(** ** More about the snapshot walker: arrays *)

Section SnapshotArrays.

Implicit Types (k : string) (v : JsVal) (fields pre post D : list (string * JsVal))
  (elems : list JsVal).

Lemma each_index_useless elems :
  each_index useless elems
  = if forallb useless elems
    then Ok (replicate (length elems) JUndefined)
    else Throw TypeError.
Proof.
  induction elems as [|v elems IH]; [done|]. simpl.
  destruct (useless v); [|done]. simpl. rewrite IH.
  by destruct (forallb useless elems).
Qed.

(** X19: the walker never keeps an element of an array: it raises
    [TypeError] when some element is neither a function nor a promise,
    and otherwise returns an array of the same length that holds only
    holes. *)
Theorem array_walk elems (fuel : nat) :
  _omitUselessFields (S fuel) (JArray elems) useless
  = Some (if forallb useless elems
          then Ok (JArray (replicate (length elems) JUndefined))
          else Throw TypeError).
Proof.
  simpl. rewrite each_index_useless. by destruct (forallb useless elems).
Qed.

(** The walker on the first fields of an object, when those are plain:
    they are rebuilt and the walk goes on with the rest. *)
Lemma each_field_prefix (walk : JsVal -> option (Res JsVal)) pre :
  forall rest D,
    Forall (fun p => key_ok (fst p) = true) (pre ++ rest) ->
    NoDup (map strip_fst (pre ++ rest)) ->
    Forall (fun p => fresh (fst p) D /\ fresh (strip_fst p) D) (pre ++ rest) ->
    Forall (fun p => isObject (snd p) = true -> useless (snd p) = false ->
                     walk (snd p) = Some (Ok (snapshot (snd p)))) pre ->
    each_field useless walk (map fst (pre ++ rest)) ((pre ++ rest) ++ D)
    = each_field useless walk (map fst rest) (rest ++ (D ++ snap_fields pre)).
Proof.
  induction pre as [|[k x] pre IH]; intros rest D Hok Hnd HD Hwalk.
  { simpl. by rewrite app_nil_r. }
  rewrite <- !app_comm_cons in *.
  apply Forall_cons in Hok as [Hk Hok]. simpl in Hk.
  rewrite map_cons in Hnd.
  apply NoDup_cons in Hnd as [Hnew Hnd]. unfold strip_fst at 1 in Hnew.
  simpl in Hnew.
  apply Forall_cons in HD as [[HkD HsD] HD]. simpl in HkD.
  unfold strip_fst in HsD. simpl in HsD.
  apply Forall_cons in Hwalk as [Hx Hwalk]. simpl in Hx.
  pose proof (not_in_strip_fresh k (pre ++ rest) Hnew) as Hfresh.
  pose proof (not_in_strip_fresh_stripped k (pre ++ rest) Hok Hk Hnew)
    as Hfresh'.
  rewrite map_cons. simpl each_field. rewrite decide_True by done.
  assert (unset ((k, x) :: (pre ++ rest) ++ D) k = (pre ++ rest) ++ D) as ->.
  { unfold unset. rewrite filter_cons, decide_False by (simpl; tauto).
    apply unset_fresh, fresh_app. done. }
  destruct (useless x) eqn:Hu.
  { simpl. by apply IH. }
  rewrite (replace_is_strip k Hk).
  set (k' := strip_leading_underscore k) in *.
  assert (fresh k' ((pre ++ rest) ++ D)) as Hk' by (by apply fresh_app).
  rewrite (obj_set_fresh _ k' x Hk').
  assert (Forall (fun p => fresh (fst p) (D ++ [(k', snapshot x)])
                           /\ fresh (strip_fst p) (D ++ [(k', snapshot x)]))
            (pre ++ rest)) as HD'.
  { apply Forall_forall. intros p Hp.
    rewrite Forall_forall in HD. destruct (HD p Hp) as [H1 H2].
    unfold fresh in Hfresh'. rewrite Forall_forall in Hfresh'.
    split; apply fresh_app; (split; [done|]);
      apply Forall_cons; (split; [|by apply Forall_nil]); simpl.
    - intros Heq. by apply (Hfresh' p Hp).
    - intros Heq. apply Hnew. rewrite Heq.
      apply list_elem_of_In, in_map.
      exact (proj1 (list_elem_of_In _ _) Hp). }
  destruct (isObject x) eqn:Hobj.
  - rewrite (Hx eq_refl eq_refl).
    rewrite (obj_set_last _ k' x (snapshot x) Hk').
    rewrite <- !(app_assoc (pre ++ rest)). rewrite (IH _ _ Hok Hnd HD' Hwalk).
    simpl. by rewrite <- app_assoc.
  - rewrite <- (snapshot_not_object x Hobj) at 1.
    rewrite <- !(app_assoc (pre ++ rest)). rewrite (IH _ _ Hok Hnd HD' Hwalk).
    simpl. by rewrite <- app_assoc.
Qed.

Lemma obj_get_array_field pre post k elems elems' (n : Z) :
  obj_get (pre ++ (k, JArray elems) :: post) "length" = JNum n ->
  obj_get (pre ++ (k, JArray elems') :: post) "length" = JNum n.
Proof.
  induction pre as [|[k0 x] pre IH]; simpl.
  - by destruct (decide (k = "length")).
  - by destruct (decide (k0 = "length")).
Qed.

Lemma arrayLike_length_array_field pre post k elems elems' :
  arrayLike_length (pre ++ (k, JArray elems) :: post) = None ->
  arrayLike_length (pre ++ (k, JArray elems') :: post) = None.
Proof.
  unfold arrayLike_length. intros H.
  destruct (obj_get (pre ++ (k, JArray elems') :: post) "length")
    as [| | |n| | | | |] eqn:Hget; try done.
  by rewrite (obj_get_array_field pre post k elems' elems n Hget) in H.
Qed.

(** X20: one array with an element to keep is enough to lose the whole
    snapshot: if an object is a plain tree when one of its fields holds an
    empty array, then with an array in that field that has an element
    that is neither a function nor a promise the constructor raises
    [TypeError]. *)
Theorem array_field_raises pre post k elems (fuel : nat) :
  plain_tree (JObject (pre ++ (k, JArray []) :: post)) = true ->
  (depth (JObject (pre ++ (k, JArray []) :: post)) < fuel)%nat ->
  forallb useless elems = false ->
  new_GameState fuel (JObject (pre ++ (k, JArray elems) :: post))
  = Some (Throw TypeError).
Proof.
  intros Hplain Hdepth Helems.
  destruct (plain_tree_object _ Hplain) as (Hall & Hnd & Hlike).
  apply (arrayLike_length_array_field _ _ _ _ elems) in Hlike.
  assert (map strip_fst (pre ++ (k, JArray elems) :: post)
          = map strip_fst (pre ++ (k, JArray []) :: post)) as Hkeys
    by (by rewrite !map_app).
  assert (Forall (fun p => key_ok (fst p) = true)
            (pre ++ (k, JArray elems) :: post)) as Hok.
  { apply Forall_app in Hall as [Hpre Hrest].
    apply Forall_cons in Hrest as [[Hk _] Hpost].
    apply Forall_app. split.
    - eapply Forall_impl; [exact Hpre|]. by intros p [? _].
    - apply Forall_cons. split; [done|].
      eapply Forall_impl; [exact Hpost|]. by intros p [? _]. }
  destruct fuel as [|[|fuel]]; [lia| |].
  { exfalso. revert Hdepth. simpl. rewrite map_app. simpl.
    clear. induction pre as [|p pre IH]; simpl; lia. }
  unfold new_GameState. simpl cloneDeep. simpl Object_assign.
  change (_omitUselessFields (S (S fuel))
            (JObject (pre ++ (k, JArray elems) :: post)) useless)
    with (match arrayLike_length (pre ++ (k, JArray elems) :: post) with
          | Some n =>
              Some (let! fields' :=
                      each_index_like useless (seq 0 (Z.to_nat n))
                        (pre ++ (k, JArray elems) :: post) in
                    Ok (JObject fields'))
          | None =>
              match each_field useless
                      (fun v => _omitUselessFields (S fuel) v useless)
                      (map fst (pre ++ (k, JArray elems) :: post))
                      (pre ++ (k, JArray elems) :: post) with
              | Some (Ok fields') => Some (Ok (JObject fields'))
              | Some (Throw e) => Some (Throw e)
              | None => None
              end
          end).
  rewrite Hlike.
  remember (fun v => _omitUselessFields (S fuel) v useless) as walk eqn:Hwalk.
  assert (walk (JArray elems) = Some (Throw TypeError)) as Harr.
  { rewrite Hwalk. cbv beta. by rewrite (array_walk elems fuel), Helems. }
  rewrite <- (app_nil_r (pre ++ (k, JArray elems) :: post)) at 2.
  rewrite (each_field_prefix walk pre ((k, JArray elems) :: post) []).
  - rewrite map_cons. simpl each_field. rewrite decide_True by done.
    simpl. by rewrite Harr.
  - exact Hok.
  - by rewrite Hkeys.
  - apply Forall_forall. intros p _. split; constructor.
  - apply Forall_app in Hall as [Hpre _].
    apply Forall_forall. intros p Hp _ _.
    rewrite Forall_forall in Hpre. destruct (Hpre p Hp) as [_ Hplain_p].
    rewrite Hwalk. apply _omitUselessFields_plain; [done|].
    assert (p ∈ pre ++ (k, JArray []) :: post) as Hin
      by (apply elem_of_app; by left).
    pose proof (depth_field _ p Hin). lia.
Qed.

(** X20 at work: a game with its list of players. *)
Lemma array_field_raises_witness :
  let pre := [("_id", JNum 7); ("_state", JObject [("_name", JStr "Finish")])] in
  let post := [("_startedAt", JNull)] in
  let players := [JObject [("_username", JStr "user-1")]] in
  plain_tree (JObject (pre ++ ("_players", JArray []) :: post)) = true
  /\ forallb useless players = false
  /\ new_GameState 3 (JObject (pre ++ ("_players", JArray players) :: post))
     = Some (Throw TypeError).
Proof.
  split; [reflexivity|]. split; [reflexivity|].
  apply (array_field_raises
           [("_id", JNum 7); ("_state", JObject [("_name", JStr "Finish")])]
           [("_startedAt", JNull)] "_players"
           [JObject [("_username", JStr "user-1")]] 3).
  - reflexivity.
  - simpl. lia.
  - reflexivity.
Defined.


End SnapshotArrays.

(** ** More about the snapshot walker: it ends on every tree *)

Section SnapshotEnds.

Implicit Types (k : string) (v : JsVal) (fields obj : list (string * JsVal))
  (d : nat).
















End SnapshotEnds.
